(** * Storage App: the time-series store and its read-side routes

    A shallow embedding of

    - [timescaledb/init/01_init_hypertable.sql]: the [sensor_readings]
      table and the query of the [sensor_readings_5min] view,
    - [frontend/src/app/api/monitoring/route.ts]: latest reading per point,
    - [frontend/src/app/api/export/route.ts]: CSV / JSON export,
    - [frontend/src/app/api/data/points/route.ts]: the points listing,
      and the delete preview and the delete that follow it in that file,
    - [frontend/src/app/api/settings/certificates/route.ts]: the
      certificate of the broker connection,
    - the settings page and the monitoring page, as far as they build
      the requests above: topics, selection of points, pager,

    together with a model of the message translator, which lives in
    [telegraf/mqtt_to_timescaledb.py] and is described by the
    specification only.

    SQL text is embedded by its meaning: a table is the list of its rows in
    insertion order, a [WHERE] clause is a boolean predicate on rows,
    [ORDER BY] is a sort, [LIMIT]/[OFFSET] are [take]/[drop].  Strings are
    sequences of code units; [ascii] stands for the code unit. *)

From Stdlib Require Import ZArith Lia Ascii String.
From stdpp Require Import base option list sorting strings pretty gmap.

Open Scope string_scope.
Open Scope Z_scope.

(** ** JavaScript values the routes manipulate *)

Module Js.

(** A value of TypeScript type [string | null | undefined]. *)
Inductive nullable (A : Type) : Type :=
| Undefined
| Null
| Val (a : A).
Arguments Undefined {A}.
Arguments Null {A}.
Arguments Val {A} a.

(** [x || d] for a string-or-null [x]: the empty string is falsy. *)
Definition or_else (x : option string) (d : string) : string :=
  match x with
  | Some s => if decide (s = "") then d else s
  | None => d
  end.

(** [x || null]. *)
Definition or_null (x : option string) : option string :=
  match x with
  | Some s => if decide (s = "") then None else Some s
  | None => None
  end.

(** [str.includes(c)] for a needle of one code unit. *)
Fixpoint includes (c : ascii) (s : string) : bool :=
  match s with
  | EmptyString => false
  | String a r => if decide (a = c) then true else includes c r
  end.

(** [xs.join(sep)]. *)
Fixpoint join (sep : string) (xs : list string) : string :=
  match xs with
  | [] => ""
  | [x] => x
  | x :: r => x ++ sep ++ join sep r
  end.

(** [s.split(c)] for a separator of one code unit: never the empty list. *)
Fixpoint split_go (c : ascii) (acc : string) (s : string) : list string :=
  match s with
  | EmptyString => [String.rev acc]
  | String a r =>
      if decide (a = c) then String.rev acc :: split_go c "" r
      else split_go c (String a acc) r
  end.

Definition split (c : ascii) (s : string) : list string := split_go c "" s.

(** [xs.filter(Boolean)] on strings drops the empty ones. *)
Definition filter_Boolean (xs : list string) : list string :=
  filter (λ s, s ≠ "") xs.

End Js.

(** ** The CSV field encoder of the export route *)

Module Csv.

Definition comma : ascii := ","%char.
Definition dquote : ascii := "034"%char.
Definition newline : ascii := "010"%char.
Definition carriage_return : ascii := "013"%char.

(** [str.replace] of every quote by two quotes (the [/g] regular
    expression of [escapeCSV]). *)
Fixpoint double_quotes (s : string) : string :=
  match s with
  | EmptyString => EmptyString
  | String a r =>
      if decide (a = dquote) then String dquote (String dquote (double_quotes r))
      else String a (double_quotes r)
  end.

(** The test of [escapeCSV]'s [if]. *)
Definition needs_quoting (str : string) : bool :=
  Js.includes comma str || Js.includes dquote str || Js.includes newline str.

Definition escapeCSV (value : Js.nullable string) : string :=
  match value with
  | Js.Null | Js.Undefined => ""
  | Js.Val str =>
      if needs_quoting str
      then String dquote (double_quotes str ++ String dquote "")
      else str
  end.

(** *** A reader for one field, following the usual quoting rules

    This is the reading side the export is written for, not code of the
    repository; it follows RFC 4180.  A field that opens with a quote
    runs to its closing quote, with a doubled quote standing for one
    quote, and may hold commas and line breaks.  Any other field holds no
    quote and runs up to the next comma or line break, and a line break
    starts at a carriage return as well as at a line feed.  The reader
    returns the field and the unread rest of the input. *)

Fixpoint read_quoted (s : string) : option (string * string) :=
  match s with
  | EmptyString => None
  | String a r =>
      if decide (a = dquote) then
        match r with
        | String b r' =>
            if decide (b = dquote)
            then '(f, rest) ← read_quoted r'; Some (String dquote f, rest)
            else Some ("", r)
        | EmptyString => Some ("", "")
        end
      else '(f, rest) ← read_quoted r; Some (String a f, rest)
  end.

Fixpoint read_bare (s : string) : option (string * string) :=
  match s with
  | EmptyString => Some ("", "")
  | String a r =>
      if decide (a = comma) then Some ("", s)
      else if decide (a = newline) then Some ("", s)
      else if decide (a = carriage_return) then Some ("", s)
      else if decide (a = dquote) then None
      else '(f, rest) ← read_bare r; Some (String a f, rest)
  end.

Definition read_field (s : string) : option (string * string) :=
  match s with
  | String a r => if decide (a = dquote) then read_quoted r else read_bare s
  | EmptyString => Some ("", "")
  end.

(** Where a field may end: at the end of the input, or before a comma or
    a line break. *)
Definition field_end (rest : string) : Prop :=
  match rest with
  | EmptyString => True
  | String b _ => b = comma ∨ b = newline ∨ b = carriage_return
  end.

(** A text that can stand in a record as it is: it holds no comma, no
    quote, no line feed and no carriage return. *)
Definition plain (str : string) : Prop :=
  needs_quoting str = false ∧ Js.includes carriage_return str = false.

(** A text that [escapeCSV] puts between quotes, or that holds no
    carriage return. *)
Definition quoted_or_no_cr (str : string) : Prop :=
  needs_quoting str = true ∨ Js.includes carriage_return str = false.

End Csv.

(** ** What the routes take from their runtime

    JavaScript numbers (and the store's [DOUBLE PRECISION]) are IEEE
    doubles: they are kept abstract, with the conversions the routes call
    on them.  An instant is an integer count of the store's time unit.
    [None] stands for [NaN] and for an invalid [Date]. *)

Class Host := {
  number : Type;
  Number_toString : number → string;
  parseInt : string → option Z;
  Date_parse : string → option Z;
  Date_toISOString : Z → string;
}.

#[local] Set Warnings "-register-all".

(** A JSON value, as [JSONB] holds it and as [JSON.parse] returns it. *)
Inductive Json `{Host} : Type :=
| JNull
| JBool (b : bool)
| JNum (n : number)
| JStr (s : string)
| JArr (xs : list Json)
| JObj (o : gmap string Json).

(** [String(val)] on a JSON value. *)
Fixpoint String_of `{Host} (val : Json) : string :=
  match val with
  | JNull => "null"
  | JBool true => "true"
  | JBool false => "false"
  | JNum n => Number_toString n
  | JStr s => s
  | JArr xs =>
      Js.join "," (map (λ x, match x with JNull => "" | _ => String_of x end) xs)
  | JObj _ => "[object Object]"
  end.

(** ** The sensor_readings table *)

Module Store.

(** A value an [INSERT] gives for a column that has a default. *)
Inductive supplied (A : Type) :=
| Omitted
| Given (a : A).
Arguments Omitted {A}.
Arguments Given {A} a.

Section Table.
Context `{Host}.

(** One row, column for column as [CREATE TABLE sensor_readings] has them;
    every column but [time] is nullable. *)
Record Row := {
  time : Z;
  haystack_name : option string;
  dis : option string;
  value : option number;
  units : option string;
  quality : option string;
  metadata : option (gmap string Json);
}.

Definition Table := list Row.

Definition columns : list string :=
  ["time"; "haystack_name"; "dis"; "value"; "units"; "quality"; "metadata"].

(** The value of a column in a row. *)
Inductive Cell :=
| Timestamptz (t : Z)
| Text (s : option string)
| Double (x : option number)
| Jsonb (j : option (gmap string Json)).

(** A column reference in a statement over [sensor_readings]; [None] is
    the error "column does not exist". *)
Definition column (name : string) : option (Row → Cell) :=
  if decide (name = "time") then Some (λ r, Timestamptz (time r))
  else if decide (name = "haystack_name") then Some (λ r, Text (haystack_name r))
  else if decide (name = "dis") then Some (λ r, Text (dis r))
  else if decide (name = "value") then Some (λ r, Double (value r))
  else if decide (name = "units") then Some (λ r, Text (units r))
  else if decide (name = "quality") then Some (λ r, Text (quality r))
  else if decide (name = "metadata") then Some (λ r, Jsonb (metadata r))
  else None.

(** The result rows of a [SELECT] with the given select list: one object
    per row, or the error when a name of the list is no column. *)
Definition select (select_list : list string) (rows : list Row)
  : option (list (list (string * Cell))) :=
  getters ← mapM (λ c, pair c <$> column c) select_list;
  Some (map (λ r, map (λ '(c, get), (c, get r)) getters) rows).

(** *** Constraints and INSERT *)

(** [CHECK (quality IN ('good', 'uncertain', 'bad'))]: a check passes when
    its condition is true or unknown, and it is unknown on [NULL]. *)
Definition quality_check (q : option string) : bool :=
  match q with
  | None => true
  | Some s => bool_decide (s ∈ ["good"; "uncertain"; "bad"])
  end.

(** The values of one [INSERT INTO sensor_readings].  [metadata] is the
    one column with a [DEFAULT]. *)
Record Values := {
  v_time : option Z;
  v_haystack_name : option string;
  v_dis : option string;
  v_value : option number;
  v_units : option string;
  v_quality : option string;
  v_metadata : supplied (option (gmap string Json));
}.

Inductive violation := not_null_time | check_quality.

Inductive insert_result :=
| Inserted (t : Table)
| Rejected (v : violation).

(** [metadata JSONB DEFAULT '{}'::jsonb] *)
Definition metadata_or_default (m : supplied (option (gmap string Json)))
  : option (gmap string Json) :=
  match m with
  | Omitted => Some ∅
  | Given j => j
  end.

(** The table has no primary key, no unique constraint and no unique
    index: the only conditions on a new row are [time NOT NULL] and the
    quality check.  An accepted row is appended. *)
Definition insert (v : Values) (t : Table) : insert_result :=
  match v_time v with
  | None => Rejected not_null_time
  | Some tm =>
      if quality_check (v_quality v) then
        Inserted (t ++ [ {| time := tm;
                            haystack_name := v_haystack_name v;
                            dis := v_dis v;
                            value := v_value v;
                            units := v_units v;
                            quality := v_quality v;
                            metadata := metadata_or_default (v_metadata v) |} ])%list
      else Rejected check_quality
  end.

(** The [INSERT] that stores a given row again, all columns given. *)
Definition values_of (r : Row) : Values :=
  {| v_time := Some (time r);
     v_haystack_name := haystack_name r;
     v_dis := dis r;
     v_value := value r;
     v_units := units r;
     v_quality := quality r;
     v_metadata := Given (metadata r) |}.

(** *** WHERE clauses the routes build *)

(** [time >= $1 AND time <= $2], or [time >= NOW() - INTERVAL '...'] with
    the interval's length. *)
Inductive time_filter :=
| Between (from to : Z)
| Since (interval : Z).

Definition in_window (now : Z) (f : time_filter) (r : Row) : bool :=
  match f with
  | Between from to => bool_decide (from ≤ time r) && bool_decide (time r ≤ to)
  | Since interval => bool_decide (now - interval ≤ time r)
  end.

(** [AND haystack_name = $n], present or not.  The comparison is never true
    on a [NULL] name. *)
Definition haystack_filter (name : option string) (r : Row) : bool :=
  match name with
  | None => true
  | Some n => bool_decide (haystack_name r = Some n)
  end.

Definition where_ (now : Z) (f : time_filter) (name : option string)
    (t : Table) : list Row :=
  filter (λ r, in_window now f r && haystack_filter name r) t.

(** [haystack_name IN ($1, ..., $n)] *)
Definition name_in (names : list string) (r : Row) : bool :=
  match haystack_name r with
  | None => false
  | Some n => bool_decide (n ∈ names)
  end.

(** *** ORDER BY *)

(** [ORDER BY time DESC] *)
Definition time_desc (r1 r2 : Row) : Prop := time r2 ≤ time r1.

(** Ascending order of a nullable text column: [NULL]s last. *)
Definition name_le (a b : option string) : Prop :=
  match a, b with
  | Some x, Some y => String.le x y
  | _, None => True
  | None, Some _ => False
  end.

(** [ORDER BY haystack_name, time DESC] *)
Definition name_then_time_desc (r1 r2 : Row) : Prop :=
  name_le (haystack_name r1) (haystack_name r2) ∧
  (haystack_name r1 = haystack_name r2 → time r2 ≤ time r1).

#[global] Instance time_desc_dec : RelDecision time_desc.
Proof. intros r1 r2. unfold time_desc. apply _. Defined.

#[global] Instance name_le_dec : RelDecision name_le.
Proof. intros [x|] [y|]; simpl; apply _. Defined.

#[global] Instance name_then_time_desc_dec : RelDecision name_then_time_desc.
Proof. intros r1 r2. unfold name_then_time_desc. apply _. Defined.

Definition order_by_time_desc (rows : list Row) : list Row :=
  merge_sort time_desc rows.

Definition order_by_name_time_desc (rows : list Row) : list Row :=
  merge_sort name_then_time_desc rows.

(** *** DISTINCT ON, LIMIT, OFFSET, COUNT *)

(** [SELECT DISTINCT ON (haystack_name)]: of each set of rows with equal
    name (two [NULL]s count as equal here) the first one in the order of
    the input is kept. *)
Fixpoint distinct_on_go (seen : list (option string)) (rows : list Row)
  : list Row :=
  match rows with
  | [] => []
  | r :: rest =>
      if decide (haystack_name r ∈ seen) then distinct_on_go seen rest
      else r :: distinct_on_go (haystack_name r :: seen) rest
  end.

Definition distinct_on_haystack_name (rows : list Row) : list Row :=
  distinct_on_go [] rows.

(** [LIMIT l OFFSET o]; a negative or [NaN] parameter is an error. *)
Definition limit_offset {A} (l o : option Z) (rows : list A) : option (list A) :=
  match l, o with
  | Some l, Some o =>
      if decide (0 ≤ l ∧ 0 ≤ o)
      then Some (take (Z.to_nat l) (drop (Z.to_nat o) rows))
      else None
  | _, _ => None
  end.

(** [COUNT(DISTINCT haystack_name)]: [NULL]s are not counted. *)
Definition count_distinct_haystack_name (rows : list Row) : Z :=
  Z.of_nat (length (remove_dups (omap haystack_name rows))).

(** [DELETE FROM sensor_readings WHERE cond] *)
Definition delete_where (cond : Row → bool) (t : Table) : Table :=
  filter (λ r, cond r = false) t.

End Table.

End Store.

(** ** Pieces the routes share *)

Module Sql.

Section Filters.
Context `{Host}.

(** The names a plain object literal inherits from [Object.prototype]:
    indexing the literal with one of them yields a function or an object,
    which is truthy and is no interval text. *)
Definition Object_prototype_keys : list string :=
  ["constructor"; "hasOwnProperty"; "isPrototypeOf"; "propertyIsEnumerable";
   "toLocaleString"; "toString"; "valueOf"; "__proto__";
   "__defineGetter__"; "__defineSetter__";
   "__lookupGetter__"; "__lookupSetter__"].

Inductive property :=
| Own (v : string)
| Inherited
| Absent.

(** [intervals[timeRange]], with
    [intervals = { '1h': '1 hour', '24h': '24 hours', '7d': '7 days',
    '30d': '30 days' }]. *)
Definition intervals (timeRange : string) : property :=
  if decide (timeRange = "1h") then Own "1 hour"
  else if decide (timeRange = "24h") then Own "24 hours"
  else if decide (timeRange = "7d") then Own "7 days"
  else if decide (timeRange = "30d") then Own "30 days"
  else if decide (timeRange ∈ Object_prototype_keys) then Inherited
  else Absent.

(** The length of [INTERVAL '...'] for the texts the routes can write,
    in the store's time unit (microseconds, days of 24 hours); any other
    text is refused by the store. *)
Definition interval_length (text : string) : option Z :=
  if decide (text = "1 hour") then Some 3600000000
  else if decide (text = "24 hours") then Some 86400000000
  else if decide (text = "7 days") then Some 604800000000
  else if decide (text = "30 days") then Some 2592000000000
  else None.

(** "Build time filter", as both the monitoring and the export route do
    it; they differ in the default range only.  [None]: the statement
    built cannot be executed (an invalid [Date] parameter or interval). *)
Definition timeFilter (default_interval : string)
    (startTime endTime : option string) (timeRange : string)
  : option Store.time_filter :=
  match startTime, endTime with
  | Some s, Some e =>
      from ← Date_parse s; to ← Date_parse e; Some (Store.Between from to)
  | _, _ =>
      match intervals timeRange with
      | Own interval => Store.Since <$> interval_length interval
      | Inherited => None
      | Absent => Store.Since <$> interval_length default_interval
      end
  end.

End Filters.

End Sql.

(** ** The message translator and the store writer *)

Module Translator.

(** Modelled from the spec: the bridge [telegraf/mqtt_to_timescaledb.py]
    is not among the sources.  What the spec leaves open about the wire
    format is taken as given: the payload decoder ([None] on a payload that
    is not structured data), the parser of numeric-looking strings, the
    name of the key that carries the explicit timestamp and how its value
    is read. *)
Class Wire `{Host} := {
  decode : string → option (gmap string Json);
  parseFloat : string → option number;
  timestamp_key : string;
  read_timestamp : Json → option Z;
}.

Section Translate.
Context `{Wire}.

(** Modelled from the spec: the two ways a translation fails, a payload
    that does not decode and a value that is not numeric. *)
Inductive failure :=
| MalformedPayloadError
| NonNumericValue.

(** Modelled from the spec: the keys recognised by exact name, one per
    fixed column other than [time]. *)
Definition fixed_keys : list string :=
  ["haystack_name"; "dis"; "value"; "units"; "quality"].

(** Modelled from the spec: a text column takes the string found under its
    key and is absent otherwise. *)
Definition text_field (j : option Json) : option string :=
  match j with
  | Some (JStr s) => Some s
  | _ => None
  end.

(** Modelled from the spec: "numeric-looking strings are parsed as
    floating point; non-numeric value fields are treated as translation
    failure"; a payload without the key has no value. *)
Definition value_field (j : option Json) : failure + option number :=
  match j with
  | None => inr None
  | Some (JNum n) => inr (Some n)
  | Some (JStr s) =>
      match parseFloat s with
      | Some n => inr (Some n)
      | None => inl NonNumericValue
      end
  | Some _ => inl NonNumericValue
  end.

(** Modelled from the spec: the explicit timestamp of a payload, if it
    carries one. *)
Definition explicit_timestamp (payload : gmap string Json) : option Z :=
  payload !! timestamp_key ≫= read_timestamp.

(** Modelled from the spec: "every remaining key/value pair not consumed
    by a fixed column is placed into the dynamic-attribute bag verbatim". *)
Definition dynamic_attributes (payload : gmap string Json) : gmap string Json :=
  filter (λ kv, kv.1 ∉ timestamp_key :: fixed_keys) payload.

(** Modelled from the spec: section 4.4, the translation of one message
    received on [topic] at time [arrival] into the values of one row. *)
Definition translate (topic raw : string) (arrival : Z)
  : failure + Store.Values :=
  match decode raw with
  | None => inl MalformedPayloadError
  | Some payload =>
      match value_field (payload !! "value") with
      | inl e => inl e
      | inr v =>
          inr {| Store.v_time := Some (default arrival (explicit_timestamp payload));
                 Store.v_haystack_name := text_field (payload !! "haystack_name");
                 Store.v_dis := text_field (payload !! "dis");
                 Store.v_value := v;
                 Store.v_units := text_field (payload !! "units");
                 Store.v_quality := text_field (payload !! "quality");
                 Store.v_metadata := Store.Given (Some (dynamic_attributes payload)) |}
      end
  end.

(** Modelled from the spec: the translator-to-store path for one message.
    The table after the message, and whether a row was stored; a message
    that fails to translate and a row the store refuses leave the table as
    it was. *)
Definition ingest (topic raw : string) (arrival : Z) (t : Store.Table)
  : Store.Table * bool :=
  match translate topic raw arrival with
  | inl _ => (t, false)
  | inr v =>
      match Store.insert v t with
      | Store.Inserted t' => (t', true)
      | Store.Rejected _ => (t, false)
      end
  end.

(** Two outcomes of a translation that differ at most in the time of the
    reading. *)
Definition without_time (v : Store.Values) : Store.Values :=
  {| Store.v_time := None;
     Store.v_haystack_name := Store.v_haystack_name v;
     Store.v_dis := Store.v_dis v;
     Store.v_value := Store.v_value v;
     Store.v_units := Store.v_units v;
     Store.v_quality := Store.v_quality v;
     Store.v_metadata := Store.v_metadata v |}.

Definition equal_but_time (a b : failure + Store.Values) : Prop :=
  match a, b with
  | inl e1, inl e2 => e1 = e2
  | inr v1, inr v2 => without_time v1 = without_time v2
  | _, _ => False
  end.

End Translate.

End Translator.

(** ** GET /api/monitoring: the latest reading per point *)

Module MonitoringRoute.

(** The result of a JavaScript division followed by [Math.ceil]. *)
Inductive js_number :=
| Int (z : Z)
| NaN
| Infinity
| NegInfinity.

(** [Math.ceil(a / b)] on whole numbers of moderate size, where the
    division of doubles is exact enough for the ceiling to be the true
    one; [b = None] is [NaN]. *)
Definition Math_ceil_div (a : Z) (b : option Z) : js_number :=
  match b with
  | None => NaN
  | Some b =>
      if decide (b = 0) then
        if decide (a = 0) then NaN
        else if decide (0 < a) then Infinity else NegInfinity
      else Int (- ((- a) `div` b))
  end.

Section Route.
Context `{Host}.

(** [getUniqueHaystackNames] of [lib/timescale], which is not among the
    sources: taken as given; [None] when it throws. *)
Variable getUniqueHaystackNames : Store.Table → option (list string).

Record Pagination := {
  page : option Z;
  limit : option Z;
  totalCount : Z;
  totalPages : js_number;
}.

Record Filters := {
  haystackNames : list string;
  timeRange : string;
  haystackName : option string;
}.

Record Body := {
  readings : list (list (string * Store.Cell));
  pagination : Pagination;
  filters : Filters;
}.

Inductive Response :=
| Ok (body : Body)
| Error500.

(** [countSql]: [SELECT COUNT(DISTINCT haystack_name) ... WHERE ...] *)
Definition countSql (now : Z) (f : Store.time_filter) (name : option string)
    (table : Store.Table) : Z :=
  Store.count_distinct_haystack_name (Store.where_ now f name table).

(** The select list of [dataSql]. *)
Definition dataSql_select_list : list string :=
  ["time"; "haystack_name"; "dis"; "value"; "units";
   "device_id"; "device_name"; "quality"].

(** The rows [dataSql] selects before [LIMIT] and [OFFSET]:
    [SELECT DISTINCT ON (haystack_name) ... WHERE ...
     ORDER BY haystack_name, time DESC]. *)
Definition dataSql_rows (now : Z) (f : Store.time_filter) (name : option string)
    (table : Store.Table) : list Store.Row :=
  Store.distinct_on_haystack_name
    (Store.order_by_name_time_desc (Store.where_ now f name table)).

(** [dataSql] with its parameters [limit] and [offset]. *)
Definition dataSql (now : Z) (f : Store.time_filter) (name : option string)
    (limit offset : option Z) (table : Store.Table)
  : option (list (list (string * Store.Cell))) :=
  rows ← Store.limit_offset limit offset (dataSql_rows now f name table);
  Store.select dataSql_select_list rows.

(** The handler.  [now] is the store's [NOW()], [table] its state;
    whatever is thrown inside [try] ends in the 500 response. *)
Definition GET (now : Z) (table : Store.Table)
    (searchParams : gmap string string) : Response :=
  let page := parseInt (Js.or_else (searchParams !! "page") "1") in
  let limit := parseInt (Js.or_else (searchParams !! "limit") "50") in
  let offset := p ← page; l ← limit; Some ((p - 1) * l) in
  let haystackName := Js.or_null (searchParams !! "haystack") in
  let timeRange := Js.or_else (searchParams !! "range") "1h" in
  let startTime := Js.or_null (searchParams !! "start") in
  let endTime := Js.or_null (searchParams !! "end") in
  let result :=
    f ← Sql.timeFilter "1 hour" startTime endTime timeRange;
    let totalCount := countSql now f haystackName table in
    readings ← dataSql now f haystackName limit offset table;
    haystackNames ← getUniqueHaystackNames table;
    Some {| readings := readings;
            pagination := {| page := page;
                             limit := limit;
                             totalCount := totalCount;
                             totalPages := Math_ceil_div totalCount limit |};
            filters := {| haystackNames := haystackNames;
                          timeRange := timeRange;
                          haystackName := haystackName |} |}
  in
  match result with
  | Some body => Ok body
  | None => Error500
  end.

(** The readings a response carries. *)
Definition readings_of (r : Response) : list (list (string * Store.Cell)) :=
  match r with
  | Ok body => readings body
  | Error500 => []
  end.

End Route.

End MonitoringRoute.

(** ** GET /api/export *)

Module ExportRoute.

Section Route.
Context `{Host}.

(** The select list of [sql]: every column of the table, so that a result
    object of type [SensorReading] is the row itself. *)
Definition sql_select_list : list string :=
  ["time"; "haystack_name"; "dis"; "value"; "units"; "quality"; "metadata"].

(** [LIMIT 100000] *)
Definition LIMIT : Z := 100000.

(** [sql]: [SELECT ... WHERE ... ORDER BY time DESC LIMIT 100000] *)
Definition sql (now : Z) (f : Store.time_filter) (name : option string)
    (table : Store.Table) : option (list Store.Row) :=
  let rows := take (Z.to_nat LIMIT)
                   (Store.order_by_time_desc (Store.where_ now f name table)) in
  _ ← Store.select sql_select_list rows;
  Some rows.

(** *** The JSON branch *)

(** A flattened reading: the six fixed fields, then the spread of
    [reading.metadata || {}], whose keys win over the fixed ones. *)
Inductive field :=
| Fixed (c : Store.Cell)
| Attribute (j : Json).

Definition flatten (reading : Store.Row) : gmap string field :=
  (Attribute <$> default ∅ (Store.metadata reading)) ∪
  list_to_map
    [("time", Fixed (Store.Timestamptz (Store.time reading)));
     ("haystack_name", Fixed (Store.Text (Store.haystack_name reading)));
     ("dis", Fixed (Store.Text (Store.dis reading)));
     ("value", Fixed (Store.Double (Store.value reading)));
     ("units", Fixed (Store.Text (Store.units reading)));
     ("quality", Fixed (Store.Text (Store.quality reading)))].

Definition flattenedReadings (readings : list Store.Row)
  : list (gmap string field) :=
  map flatten readings.

(** *** The CSV branch *)

(** [Set.prototype.add] on a set kept in insertion order. *)
Definition Set_add (set : list string) (key : string) : list string :=
  if decide (key ∈ set) then set else (set ++ [key])%list.

(** [Object.keys(reading.metadata)]; the order of the keys plays no role,
    the keys are sorted after they are collected. *)
Definition Object_keys (o : gmap string Json) : list string :=
  (map_to_list o).*1.

(** The loop over the readings that fills the set, from any start. *)
Definition collect (set : list string) (readings : list Store.Row) : list string :=
  foldl (λ set reading,
           match Store.metadata reading with
           | Some m => foldl Set_add set (Object_keys m)
           | None => set
           end)
        set readings.

(** "Collect all unique metadata keys across all readings" *)
Definition metadataKeys (readings : list Store.Row) : list string :=
  collect [] readings.

(** A reading has a bag, and the bag has the key. *)
Definition has_key (reading : Store.Row) (k : string) : Prop :=
  ∃ m, Store.metadata reading = Some m ∧ is_Some (m !! k).

(** [Array.from(metadataKeys).sort()]: the default order of [sort] is
    that of the code units. *)
Definition sortedMetadataKeys (readings : list Store.Row) : list string :=
  merge_sort String.le (metadataKeys readings).

Definition fixed_headers : list string :=
  ["time"; "haystack_name"; "display_name"; "value"; "units"; "quality"].

Definition headers (readings : list Store.Row) : list string :=
  (fixed_headers ++ sortedMetadataKeys readings)%list.

Definition of_text (s : option string) : Js.nullable string :=
  match s with
  | Some s => Js.Val s
  | None => Js.Null
  end.

(** What indexing a bag with a key finds: a value of the bag's own, or
    the member of that name which every object inherits from
    [Object.prototype]. *)
Inductive member :=
| OwnValue (val : Json)
| InheritedMember (key : string).

(** [reading.metadata?.[key]]; [None] is [undefined]: the bag is [null],
    or it has no such key of its own and inherits none. *)
Definition metadata_get (reading : Store.Row) (key : string) : option member :=
  m ← Store.metadata reading;
  match m !! key with
  | Some val => Some (OwnValue val)
  | None =>
      if decide (key ∈ Sql.Object_prototype_keys)
      then Some (InheritedMember key) else None
  end.

(** [String] of an inherited member, as Node writes it: [__proto__] is
    the prototype itself, an object; [constructor] is the function
    [Object]; every other member is a built-in function of its own
    name. *)
Definition String_of_inherited (key : string) : string :=
  if decide (key = "__proto__") then "[object Object]"
  else if decide (key = "constructor") then "function Object() { [native code] }"
  else "function " ++ key ++ "() { [native code] }".

(** [String(val)] *)
Definition String_of_member (val : member) : string :=
  match val with
  | OwnValue val => String_of val
  | InheritedMember key => String_of_inherited key
  end.

(** The cell of one metadata column:
    [val !== undefined && val !== null ? escapeCSV(String(val)) : ''] with
    [val = reading.metadata?.[key]]. *)
Definition metadata_cell (reading : Store.Row) (key : string) : string :=
  match metadata_get reading key with
  | None | Some (OwnValue JNull) => ""
  | Some val => Csv.escapeCSV (Js.Val (String_of_member val))
  end.

(** One data row before [join]; [join] writes a [null] value as the empty
    string and a number as [String] does. *)
Definition row (keys : list string) (reading : Store.Row) : list string :=
  ([Date_toISOString (Store.time reading);
    Csv.escapeCSV (of_text (Store.haystack_name reading));
    Csv.escapeCSV (of_text (Store.dis reading));
    from_option Number_toString "" (Store.value reading);
    Csv.escapeCSV (of_text (Store.units reading));
    Csv.escapeCSV (of_text (Store.quality reading))]
   ++ map (metadata_cell reading) keys)%list.

Definition csvRows (readings : list Store.Row) : list string :=
  Js.join "," (headers readings)
  :: map (λ reading, Js.join "," (row (sortedMetadataKeys readings) reading))
         readings.

Definition csvContent (readings : list Store.Row) : string :=
  Js.join (String Csv.newline "") (csvRows readings).

(** *** The handler *)

(** The body of the response; the download headers are left out. *)
Inductive Response :=
| Json_body (flattened : list (gmap string field))
| Csv_body (content : string)
| Error500.

(** The readings the handler queries for a request; [None] when the
    query throws. *)
Definition query_readings (now : Z) (table : Store.Table)
    (searchParams : gmap string string) : option (list Store.Row) :=
  let timeRange := Js.or_else (searchParams !! "range") "24h" in
  let haystackName := Js.or_null (searchParams !! "haystack") in
  let startTime := Js.or_null (searchParams !! "start") in
  let endTime := Js.or_null (searchParams !! "end") in
  f ← Sql.timeFilter "24 hours" startTime endTime timeRange;
  sql now f haystackName table.

Definition GET (now : Z) (table : Store.Table)
    (searchParams : gmap string string) : Response :=
  let format := Js.or_else (searchParams !! "format") "csv" in
  match query_readings now table searchParams with
  | None => Error500
  | Some readings =>
      if decide (format = "json") then Json_body (flattenedReadings readings)
      else Csv_body (csvContent readings)
  end.

End Route.

End ExportRoute.

(** ** The delete route: preview (GET) and execution (DELETE)

    The text of this route follows the points listing in
    [frontend/src/app/api/data/points/route.ts]; the settings page calls it
    as [/api/data/delete]. *)

Module DeleteRoute.

Section Route.
Context `{Host}.

(** The JSON body of a DELETE request. *)
Record DeleteRequest := {
  type : option string;
  haystack_names : option (list string);
  from : option string;
  to : option string;
}.

(** The condition both handlers branch on, and the rows it selects.
    [Invalid] is the 400 answer. *)
Inductive selection :=
| Points (names : list string)
| Time_range (from to : string)
| All
| Invalid.

(** [names?.length]: the list when it is there and not empty. *)
Definition with_length (names : option (list string)) : option (list string) :=
  match names with
  | Some (n :: ns) => Some (n :: ns)
  | _ => None
  end.

(** The [if ... else if ...] chain, the same text in both handlers:
    [type === 'points' && names?.length], then [type === 'time_range' &&
    from && to], then [type === 'all']. *)
Definition choose (type : option string) (names : option (list string))
    (from to : option string) : selection :=
  match (if decide (type = Some "points") then with_length names else None) with
  | Some names => Points names
  | None =>
      match (if decide (type = Some "time_range")
             then f ← Js.or_null from; t ← Js.or_null to; Some (f, t)
             else None) with
      | Some (f, t) => Time_range f t
      | None => if decide (type = Some "all") then All else Invalid
      end
  end.

(** The [WHERE] clause of a selection; [None] when a [Date] parameter is
    invalid and the statement fails. *)
Definition where_clause (s : selection) : option (Store.Row → bool) :=
  match s with
  | Points names => Some (Store.name_in names)
  | Time_range from to =>
      f ← Date_parse from; t ← Date_parse to;
      Some (Store.in_window 0 (Store.Between f t))
  | All => Some (λ _, true)
  | Invalid => None
  end.

Inductive PreviewResponse :=
| Count (count : Z)
| PreviewInvalid400
| PreviewError500.

(** GET - Preview delete count *)
Definition GET (table : Store.Table) (searchParams : gmap string string)
  : PreviewResponse :=
  let type := searchParams !! "type" in
  let haystackNames :=
    (λ s, Js.filter_Boolean (Js.split "," s)) <$> searchParams !! "haystack_names" in
  let from := searchParams !! "from" in
  let to := searchParams !! "to" in
  match choose type haystackNames from to with
  | Invalid => PreviewInvalid400
  | s =>
      match where_clause s with
      | Some cond => Count (Z.of_nat (length (filter (λ r, cond r = true) table)))
      | None => PreviewError500
      end
  end.

Inductive DeleteResponse :=
| Success
| DeleteInvalid400
| DeleteError500.

(** DELETE - Execute deletion: the table afterwards and the response.
    [TRUNCATE TABLE] removes every row. *)
Definition DELETE (table : Store.Table) (body : DeleteRequest)
  : Store.Table * DeleteResponse :=
  match choose (type body) (haystack_names body) (from body) (to body) with
  | Invalid => (table, DeleteInvalid400)
  | All => ([], Success)
  | s =>
      match where_clause s with
      | Some cond => (Store.delete_where cond table, Success)
      | None => (table, DeleteError500)
      end
  end.

End Route.

End DeleteRoute.

(** ** GET /api/data/points: the points and their statistics

    The first handler of [frontend/src/app/api/data/points/route.ts]. *)

Module PointsRoute.

Section Route.
Context `{Host}.

(** One element of [points] in the response; [count] is the [bigint] of
    [COUNT], read by [parseInt] from its decimal text. *)
Record Point := {
  name : string;
  count : Z;
  firstTime : Z;
  lastTime : Z;
}.

(** The times of the group of a name: the rows with
    [haystack_name = name], in the order of the table. *)
Definition times_of (n : string) (table : Store.Table) : list Z :=
  Store.time <$> filter (λ r, Store.haystack_name r = Some n) table.

(** The row of the result for one group; a group is never empty. *)
Definition group (n : string) (table : Store.Table) : option Point :=
  match times_of n table with
  | [] => None
  | t :: ts =>
      Some {| name := n;
              count := Z.of_nat (length (t :: ts));
              firstTime := foldr Z.min t ts;
              lastTime := foldr Z.max t ts |}
  end.

(** [GROUP BY haystack_name] under [WHERE haystack_name IS NOT NULL],
    [ORDER BY haystack_name]: the names to report, ascending. *)
Definition group_names (table : Store.Table) : list string :=
  merge_sort String.le (remove_dups (omap Store.haystack_name table)).

(** The handler: the [points] of its response.  The statement has no
    parameter and names columns of the table only. *)
Definition GET (table : Store.Table) : list Point :=
  omap (λ n, group n table) (group_names table).

End Route.

End PointsRoute.

(** ** The states of the table

    The table starts empty; the bridge inserts rows and the delete route
    removes rows. *)

Module History.

Section Reachable.
Context `{Host}.

Inductive reachable : Store.Table → Prop :=
| reach_empty : reachable []
| reach_insert (v : Store.Values) (t t' : Store.Table) :
    reachable t → Store.insert v t = Store.Inserted t' → reachable t'
| reach_delete (body : DeleteRoute.DeleteRequest) (t : Store.Table) :
    reachable t → reachable (DeleteRoute.DELETE t body).1.

End Reachable.

End History.

(** ** Reading the CSV export

    The reading side again, now for records and for a whole text: fields
    are read one after the other by [Csv.read_field]; a comma after a
    field announces the next field, a line break or the end of the input
    ends the record, and anything else after a closing quote is an
    error. *)

Module CsvLine.

(** One record: its fields and the input after its line break, which is
    a line feed, a carriage return, or a carriage return and a line
    feed. *)
Fixpoint read_record (fuel : nat) (s : string) : option (list string * string) :=
  match fuel with
  | O => None
  | S fuel =>
      '(f, rest) ← Csv.read_field s;
      match rest with
      | EmptyString => Some ([f], "")
      | String c rest' =>
          if decide (c = Csv.comma) then
            '(fs, rest'') ← read_record fuel rest'; Some (f :: fs, rest'')
          else if decide (c = Csv.newline) then Some ([f], rest')
          else if decide (c = Csv.carriage_return) then
            match rest' with
            | String d rest'' =>
                if decide (d = Csv.newline) then Some ([f], rest'')
                else Some ([f], rest')
            | EmptyString => Some ([f], "")
            end
          else None
      end
  end.

(** The first record of a text.  Every field but the last is followed by
    a comma: a record has at most one field more than it has
    characters. *)
Definition read_line (s : string) : option (list string) :=
  fst <$> read_record (S (String.length s)) s.

(** The records of a text, up to its end. *)
Fixpoint read_records (fuel : nat) (s : string) : option (list (list string)) :=
  match fuel with
  | O => None
  | S fuel =>
      '(fs, rest) ← read_record (S (String.length s)) s;
      match rest with
      | EmptyString => Some [fs]
      | String _ _ => (fs ::.) <$> read_records fuel rest
      end
  end.

(** Every record takes at least one character, or ends the text. *)
Definition read_csv (s : string) : option (list (list string)) :=
  read_records (S (String.length s)) s.

Section Texts.
Context `{Host}.

(** The text in the cell of one metadata column, before [escapeCSV]. *)
Definition metadata_text (reading : Store.Row) (key : string) : string :=
  match ExportRoute.metadata_get reading key with
  | None | Some (ExportRoute.OwnValue JNull) => ""
  | Some val => ExportRoute.String_of_member val
  end.

(** The texts in the cells of one data row, before [escapeCSV]. *)
Definition texts (keys : list string) (reading : Store.Row) : list string :=
  ([Date_toISOString (Store.time reading);
    default "" (Store.haystack_name reading);
    default "" (Store.dis reading);
    from_option Number_toString "" (Store.value reading);
    default "" (Store.units reading);
    default "" (Store.quality reading)]
   ++ map (metadata_text reading) keys)%list.

End Texts.

End CsvLine.

(** ** The monitoring page: its pager

    From the page component of the monitoring listing (in
    [src/unnamed/part_003]): the page asks for 50 readings a page, shows
    which entries it is showing, and steps through the pages with two
    buttons. *)

Module MonitoringPage.

(** [limit: '50'] in the request, [50] in the text. *)
Definition page_size : Z := 50.

(** "Showing [(page - 1) * 50 + 1] to [Math.min(page * 50, totalCount)]
    of [totalCount] entries" *)
Definition showing_from (page : Z) : Z := (page - 1) * 50 + 1.
Definition showing_to (page totalCount : Z) : Z := Z.min (page * 50) totalCount.

(** [setPage(p => Math.max(1, p - 1))] *)
Definition previous (p : Z) : Z := Z.max 1 (p - 1).

(** [setPage(p => Math.min(data.pagination.totalPages, p + 1))] *)
Definition next (totalPages p : Z) : Z := Z.min totalPages (p + 1).

End MonitoringPage.

(** ** The settings page: topics and the selection of points to delete

    From the page component of the settings (in [src/unnamed/part_001]). *)

Module SettingsPage.

(** White space for [String.prototype.trim], among the code units that an
    [ascii] can stand for: tab, line feed, vertical tab, form feed,
    carriage return, space and no-break space. *)
Definition is_space (a : ascii) : bool :=
  bool_decide (N_of_ascii a ∈ [9; 10; 11; 12; 13; 32; 160]%N).

Fixpoint trimStart (s : string) : string :=
  match s with
  | EmptyString => EmptyString
  | String a r => if is_space a then trimStart r else s
  end.

Fixpoint trimEnd (s : string) : string :=
  match s with
  | EmptyString => EmptyString
  | String a r =>
      match trimEnd r with
      | EmptyString => if is_space a then EmptyString else String a EmptyString
      | r' => String a r'
      end
  end.

(** [s.trim()] *)
Definition trim (s : string) : string := trimEnd (trimStart s).

Section State.
(** The fields of [Settings] other than [mqtt.topicPatterns]; the
    handlers copy them as they are. *)
Context {Others : Type}.

Record Settings := {
  topicPatterns : list string;
  others : Others;
}.

(** [addTopicPattern]: the new [settings] and the new content of the
    input field [newTopic]. *)
Definition addTopicPattern (newTopic : string) (settings : option Settings)
  : option Settings * string :=
  match settings with
  | None => (None, newTopic)
  | Some prev =>
      if decide (trim newTopic = "") then (Some prev, newTopic)
      else (Some {| topicPatterns := (topicPatterns prev ++ [trim newTopic])%list;
                    others := others prev |},
            "")
  end.

(** [patterns.filter((_, i) => i !== index)] *)
Definition filter_index (index : nat) (patterns : list string) : list string :=
  omap id (imap (λ i p, if decide (i ≠ index) then Some p else None) patterns).

(** [removeTopicPattern] *)
Definition removeTopicPattern (index : nat) (settings : option Settings)
  : option Settings :=
  match settings with
  | None => None
  | Some prev =>
      Some {| topicPatterns := filter_index index (topicPatterns prev);
              others := others prev |}
  end.

End State.
Arguments Settings : clear implicits.

(** [togglePointSelection]: the new [selectedPoints]. *)
Definition togglePointSelection (pointName : string) (prev : list string)
  : list string :=
  if decide (pointName ∈ prev)
  then filter (λ p, p ≠ pointName) prev
  else (prev ++ [pointName])%list.

(** The value [previewDelete] gives the [haystack_names] parameter. *)
Definition haystack_names_parameter (selectedPoints : list string) : string :=
  Js.join "," selectedPoints.

End SettingsPage.

(** ** The certificates route

    [GET], [POST] and [DELETE] of
    [frontend/src/app/api/settings/certificates/route.ts].  The handlers
    act on the configuration row of id 1 and on the files of the server;
    of the row, the route reads and writes [caCertPath] only. *)

Module CertificatesRoute.

(** Node's [path.extname] and [path.basename] and the [toLowerCase] of
    strings, taken as given. *)
Class NodePath := {
  extname : string → string;
  basename : string → string;
  toLowerCase : string → string;
}.

Section Route.
Context `{NodePath}.

(** The columns of [MqttConfig] other than [caCertPath], and the values
    a row created without them gets. *)
Context {Others : Type}.
Variable default_others : Others.

Record MqttConfig := {
  caCertPath : option string;
  others : Others;
}.

(** An uploaded [File]. *)
Record File := {
  name : string;
  content : string;
}.

(** What the handlers act on: the row of id 1, if there is one, and the
    regular files by their path. *)
Record World := {
  config : option MqttConfig;
  files : gmap string string;
}.

Definition CERTS_DIR : string := "/app/certs".

Definition validExtensions : list string := [".pem"; ".crt"; ".cer"].

(** "Preserve original file extension" *)
Definition extension (file_name : string) : string :=
  let originalExt := toLowerCase (extname file_name) in
  if decide (originalExt ∈ validExtensions) then originalExt else ".pem".

(** [path.join(CERTS_DIR, `${certType}_cert${extension}`)] for the type
    [ca]; the file name holds no separator. *)
Definition filePath (file_name : string) : string :=
  CERTS_DIR ++ "/" ++ "ca" ++ "_cert" ++ extension file_name.

(** [certificates.ca] of the GET response. *)
Record CaStatus := {
  exists_ : bool;
  path : option string;
  filename : option string;
}.

(** GET - List certificates *)
Definition GET (w : World) : CaStatus :=
  match Js.or_null (config w ≫= caCertPath) with
  | Some p =>
      if decide (is_Some (files w !! p))
      then {| exists_ := true; path := Some p; filename := Some (basename p) |}
      else {| exists_ := false; path := Some p; filename := None |}
  | None => {| exists_ := false; path := None; filename := None |}
  end.

Inductive PostResponse :=
| Uploaded (path : string)
| NoFile400
| InvalidType400.

(** POST - Upload certificate: [writeFile], then [upsert] of the row. *)
Definition POST (file : option File) (certType : option string) (w : World)
  : World * PostResponse :=
  match file with
  | None => (w, NoFile400)
  | Some file =>
      if decide (certType = Some "ca") then
        let p := filePath (name file) in
        ({| config :=
              Some {| caCertPath := Some p;
                      others := from_option others default_others (config w) |};
            files := <[p := content file]> (files w) |},
         Uploaded p)
      else (w, InvalidType400)
  end.

Inductive DeleteResponse :=
| Deleted
| DeleteInvalidType400
| DeleteError500.

(** DELETE - Remove certificate: [unlink] of the file the row names, if
    it exists, then [update] of the row, which throws when there is no
    row. *)
Definition DELETE (certType : option string) (w : World)
  : World * DeleteResponse :=
  if decide (certType = Some "ca") then
    let files' :=
      match Js.or_null (config w ≫= caCertPath) with
      | Some p => if decide (is_Some (files w !! p)) then delete p (files w)
                  else files w
      | None => files w
      end in
    match config w with
    | Some c =>
        ({| config := Some {| caCertPath := None; others := others c |};
            files := files' |}, Deleted)
    | None => ({| config := None; files := files' |}, DeleteError500)
    end
  else (w, DeleteInvalidType400).

End Route.

End CertificatesRoute.

(** ** The 5-minute averages

    The query that defines the continuous aggregate
    [sensor_readings_5min] in [01_init_hypertable.sql], evaluated on a
    state of the table. *)

Module FiveMinutes.

(** [INTERVAL '5 minutes'], in the store's time unit. *)
Definition five_minutes : Z := 300000000.

(** [time_bucket(width, time)]: the start of the bucket of the given
    width that holds the time. *)
Definition time_bucket (width t : Z) : Z := width * (t `div` width).

(** [AVG], [MIN] and [MAX] of the store over the [DOUBLE PRECISION]
    values of a group ([NULL]s apart), taken as given; [None] is [NULL]. *)
Class DoubleAggregates `{Host} := {
  AVG : list number → option number;
  MIN : list number → option number;
  MAX : list number → option number;
}.

Section View.
Context `{DoubleAggregates}.

(** One row of the view. *)
Record Average := {
  bucket : Z;
  haystack_name : option string;
  dis : option string;
  avg_value : option number;
  min_value : option number;
  max_value : option number;
  sample_count : Z;
}.

(** [WHERE quality = 'good'] *)
Definition good (table : Store.Table) : list Store.Row :=
  filter (λ r, Store.quality r = Some "good") table.

(** [GROUP BY bucket, haystack_name, dis]; two [NULL]s group together. *)
Definition key (r : Store.Row) : Z * option string * option string :=
  (time_bucket five_minutes (Store.time r), Store.haystack_name r, Store.dis r).

Definition members (k : Z * option string * option string)
    (table : Store.Table) : list Store.Row :=
  filter (λ r, key r = k) (good table).

Definition average (k : Z * option string * option string)
    (table : Store.Table) : Average :=
  let values := omap Store.value (members k table) in
  {| bucket := k.1.1;
     haystack_name := k.1.2;
     dis := k.2;
     avg_value := AVG values;
     min_value := MIN values;
     max_value := MAX values;
     sample_count := Z.of_nat (length (members k table)) |}.

(** The rows of the view, one for each group. *)
Definition view (table : Store.Table) : list Average :=
  (λ k, average k table) <$> remove_dups (key <$> good table).

End View.

End FiveMinutes.

(** ** Sample data

    A runtime with whole numbers for the doubles and decimal numerals for
    instants, a decoder that knows three messages, and a few rows. *)

Module Samples.

Fixpoint digits (acc : Z) (s : string) : option Z :=
  match s with
  | EmptyString => Some acc
  | String a r => d ← Ascii.is_nat a; digits (10 * acc + Z.of_nat d) r
  end.

Definition numeral (s : string) : option Z :=
  if decide (s = "") then None else digits 0 s.

Definition host : Host :=
  {| number := Z;
     Number_toString := pretty;
     parseInt := numeral;
     Date_parse := numeral;
     Date_toISOString := pretty |}.

Definition num (z : Z) : @Json host := @JNum host z.
Definition str (s : string) : @Json host := @JStr host s.

Definition msg_fixed_only : gmap string (@Json host) :=
  list_to_map
    [("haystack_name", str "ahu.temp"); ("value", str "23");
     ("units", str "degC"); ("quality", str "good")].

Definition msg_stale : gmap string (@Json host) :=
  list_to_map
    [("haystack_name", str "ahu.temp"); ("value", num 23);
     ("quality", str "stale"); ("device_id", num 12345)].

Definition msg_stamped : gmap string (@Json host) :=
  list_to_map
    [("haystack_name", str "ahu.temp"); ("value", num 23);
     ("timestamp", num 1700); ("device_id", num 12345)].

Definition wire : @Translator.Wire host :=
  @Translator.Build_Wire host
    (λ raw,
       if decide (raw = "fixed-only") then Some msg_fixed_only
       else if decide (raw = "stale") then Some msg_stale
       else if decide (raw = "stamped") then Some msg_stamped
       else None)
    numeral
    "timestamp"
    (λ j, match j with @JNum _ n => Some n | _ => None end).

Definition reading (t : Z) (name : string) (v : Z)
    (attrs : list (string * @Json host)) : @Store.Row host :=
  @Store.Build_Row host t (Some name) (Some "Supply air") (Some v)
    (Some "degC") (Some "good") (Some (list_to_map attrs)).

Definition r1 : @Store.Row host :=
  reading 100 "ahu.temp" 21 [("device_id", num 12345)].
Definition r2 : @Store.Row host :=
  reading 200 "ahu.temp" 22 [("device_id", num 12345); ("timezone", str "UTC")].
Definition r3 : @Store.Row host :=
  reading 150 "vav.flow" 7 [].

Definition table : @Store.Table host := [r1; r3; r2].

(** No helper of [lib/timescale] is at hand here. *)
Definition names : @Store.Table host → option (list string) :=
  λ t, Some (remove_dups (omap Store.haystack_name t)).

Definition between_0_1000 : gmap string string :=
  list_to_map [("start", "0"); ("end", "1000")].

(** The values the translator gives for the message named stale,
    received at time 5. *)
Definition stale_values : @Store.Values host :=
  @Store.Build_Values host (Some 5) (Some "ahu.temp") None (Some 23) None
    (Some "stale") (Store.Given (Some (list_to_map [("device_id", num 12345)]))).

(** The values for the message named fixed-only, and the row stored for
    them. *)
Definition fixed_only_values : @Store.Values host :=
  @Store.Build_Values host (Some 5) (Some "ahu.temp") None (Some 23)
    (Some "degC") (Some "good") (Store.Given (Some ∅)).

Definition fixed_only_row : @Store.Row host :=
  @Store.Build_Row host 5 (Some "ahu.temp") None (Some 23)
    (Some "degC") (Some "good") (Some ∅).

(** A preview request and a delete request for two points. *)
Definition preview_points : gmap string string :=
  list_to_map [("type", "points"); ("haystack_names", "ahu.temp,,vav.flow")].

Definition delete_points : @DeleteRoute.DeleteRequest :=
  DeleteRoute.Build_DeleteRequest
    (Some "points") (Some ["ahu.temp"; "vav.flow"]) None None.

(** One row more than the export takes: the rows of the times 0 to
    100 000, oldest first, the request for a window that holds them all,
    and the rows the export's query selects for it. *)
Fixpoint ticks (n : nat) (t : Z) : list (@Store.Row host) :=
  match n with
  | O => []
  | S n => reading t "ahu.temp" 21 [] :: ticks n (t + 1)
  end.

Definition many : @Store.Table host := ticks (Z.to_nat 100001) 0.


Definition most_recent : list (@Store.Row host) :=
  take (Z.to_nat ExportRoute.LIMIT)
    (Store.order_by_time_desc (Store.where_ 0 (Store.Between 0 200000) None many)).

(** A preview request and a delete request for a time range. *)
Definition preview_range : gmap string string :=
  list_to_map [("type", "time_range"); ("from", "100"); ("to", "150")].

Definition delete_range : @DeleteRoute.DeleteRequest :=
  DeleteRoute.Build_DeleteRequest (Some "time_range") None (Some "100") (Some "150").

(** A fourth row of another point, to be deleted around. *)
Definition r4 : @Store.Row host :=
  reading 300 "chw.valve" 55 [].

(** Readings for the export: one with an attribute named as a member
    that every object inherits, one with an empty bag, and one with an
    attribute whose key holds a comma. *)
Definition r5 : @Store.Row host :=
  reading 400 "ahu.temp" 21 [("toString", str "x")].
Definition r6 : @Store.Row host :=
  reading 500 "ahu.temp" 22 [].
Definition r7 : @Store.Row host :=
  reading 600 "ahu.temp" 23 [("a,b", num 1)].


(** Search parameters of export requests: a window and one point, a
    window that holds no row, a lone lower bound, and a range the route
    does not know. *)
Definition export_vav : gmap string string :=
  list_to_map [("start", "0"); ("end", "1000"); ("haystack", "vav.flow")].

Definition export_before_all : gmap string string :=
  list_to_map [("start", "0"); ("end", "50")].

Definition export_lone_start : gmap string string :=
  list_to_map [("start", "0"); ("format", "json")].

Definition export_one_year : gmap string string :=
  list_to_map [("range", "1y")].

(** The two points of [table], as the points listing reports them. *)
Definition ahu_temp : PointsRoute.Point :=
  PointsRoute.Build_Point "ahu.temp" 2 100 200.

Definition vav_flow : PointsRoute.Point :=
  PointsRoute.Build_Point "vav.flow" 1 150 150.

(** A path library that knows the names of two uploads, and a world with
    no row and no file. *)
Definition paths : CertificatesRoute.NodePath :=
  {| CertificatesRoute.extname := λ s,
       if decide (s = "root.CRT") then ".CRT"
       else if decide (s = "ca.pem") then ".pem"
       else "";
     CertificatesRoute.basename := λ s,
       if decide (s = "/app/certs/ca_cert.crt") then "ca_cert.crt"
       else if decide (s = "/app/certs/ca_cert.pem") then "ca_cert.pem"
       else s;
     CertificatesRoute.toLowerCase := λ s,
       if decide (s = ".CRT") then ".crt" else s |}.

Definition root_CRT : CertificatesRoute.File :=
  CertificatesRoute.Build_File "root.CRT" "first".

Definition ca_pem : CertificatesRoute.File :=
  CertificatesRoute.Build_File "ca.pem" "second".

Definition no_certificate : CertificatesRoute.World (Others:=unit) :=
  CertificatesRoute.Build_World None ∅.

(** Aggregates over whole numbers; the average is rounded down. *)
Definition aggregates : @FiveMinutes.DoubleAggregates host :=
  @FiveMinutes.Build_DoubleAggregates host
    (λ l, match l with
          | [] => None
          | x :: xs => Some (foldr Z.add 0 (x :: xs) `div` Z.of_nat (length (x :: xs)))
          end)
    (λ l, match l with [] => None | x :: xs => Some (foldr Z.min x xs) end)
    (λ l, match l with [] => None | x :: xs => Some (foldr Z.max x xs) end).

(** The row of the 5-minute view for the point [ahu.temp]. *)
Definition ahu_temp_average : @FiveMinutes.Average host :=
  @FiveMinutes.Build_Average host 0 (Some "ahu.temp") (Some "Supply air")
    (Some 21) (Some 21) (Some 22) 2.

End Samples.

(** * Properties *)

(** A closed decidable statement, settled by evaluating its decision. *)
Ltac by_computation := apply (bool_decide_unpack _); vm_compute; exact I.

(** ** The CSV field encoder *)

Section CsvFacts.
Import Csv.

Lemma string_app_cons (a : ascii) (s r : string) : String a s ++ r = String a (s ++ r).
Proof. reflexivity. Qed.

Lemma string_app_empty_l (r : string) : "" ++ r = r.
Proof. reflexivity. Qed.

Lemma string_app_empty_r (s : string) : s ++ "" = s.
Proof. induction s as [|a s IH]; [done|]. by rewrite string_app_cons, IH. Qed.

Lemma string_app_assoc (s r t : string) : (s ++ r) ++ t = s ++ r ++ t.
Proof. induction s as [|a s IH]; [done|]. by rewrite !string_app_cons, IH. Qed.

Lemma includes_spec (c : ascii) (s : string) :
  Js.includes c s = true ↔ c ∈ list_ascii_of_string s.
Proof.
  induction s as [|a s IH]; simpl.
  - split; [done | by intros ?%elem_of_nil].
  - rewrite elem_of_cons. case_decide; subst.
    + split; auto.
    + rewrite IH. split; [auto | intros [?|?]; congruence].
Qed.

Lemma includes_cons_false (c a : ascii) (s : string) :
  Js.includes c (String a s) = false → a ≠ c ∧ Js.includes c s = false.
Proof. simpl. case_decide; [done | auto]. Qed.

Lemma needs_quoting_cons_false (a : ascii) (s : string) :
  needs_quoting (String a s) = false →
  a ≠ comma ∧ a ≠ dquote ∧ a ≠ newline ∧ needs_quoting s = false.
Proof.
  unfold needs_quoting. rewrite !orb_false_iff. intros [[H1 H2] H3].
  apply includes_cons_false in H1 as [? ->].
  apply includes_cons_false in H2 as [? ->].
  apply includes_cons_false in H3 as [? ->]. done.
Qed.

Lemma read_quoted_double_quotes (s rest : string) :
  field_end rest →
  read_quoted (double_quotes s ++ String dquote rest) = Some (s, rest).
Proof.
  intros Hend. induction s as [|a s IH]; simpl.
  - destruct rest as [|b r]; [done|].
    rewrite decide_False; [done|].
    destruct Hend as [-> | [-> | ->]]; discriminate.
  - destruct (decide (a = dquote)) as [->|Hne]; simpl.
    + by rewrite IH.
    + rewrite decide_False by done. by rewrite IH.
Qed.

Lemma read_bare_field_end (rest : string) :
  field_end rest → read_bare rest = Some ("", rest).
Proof.
  destruct rest as [|b r]; [done|]. simpl.
  intros [-> | [-> | ->]]; done.
Qed.

Lemma read_bare_unquoted (s rest : string) :
  needs_quoting s = false → Js.includes carriage_return s = false →
  field_end rest →
  read_bare (s ++ rest) = Some (s, rest).
Proof.
  intros Hs Hcr Hend. induction s as [|a s IH].
  - by apply read_bare_field_end.
  - apply needs_quoting_cons_false in Hs as (? & ? & ? & Hs).
    apply includes_cons_false in Hcr as [? Hcr].
    rewrite string_app_cons. simpl.
    rewrite !decide_False by done. by rewrite IH.
Qed.

Lemma read_field_unquoted (s rest : string) :
  needs_quoting s = false → Js.includes carriage_return s = false →
  field_end rest →
  read_field (s ++ rest) = Some (s, rest).
Proof.
  intros Hs Hcr Hend. destruct s as [|a s].
  - rewrite string_app_empty_l. destruct rest as [|b r]; [done|].
    unfold read_field.
    rewrite decide_False; [by apply read_bare_field_end|].
    destruct Hend as [-> | [-> | ->]]; discriminate.
  - pose proof (needs_quoting_cons_false _ _ Hs) as (? & ? & ? & ?).
    rewrite string_app_cons.
    unfold read_field. rewrite decide_False by done.
    rewrite <- string_app_cons.
    by apply (read_bare_unquoted (String a s)).
Qed.

Lemma read_field_escapeCSV (s rest : string) :
  quoted_or_no_cr s → field_end rest →
  read_field (escapeCSV (Js.Val s) ++ rest) = Some (s, rest).
Proof.
  intros Hs Hend. unfold escapeCSV.
  destruct (needs_quoting s) eqn:Hq.
  - rewrite string_app_cons. simpl.
    rewrite string_app_assoc, string_app_cons, string_app_empty_l.
    by apply read_quoted_double_quotes.
  - destruct Hs as [Hs|Hs]; [by rewrite Hq in Hs|].
    by apply read_field_unquoted.
Qed.

(** The first occurrence of a code unit in a text that holds it. *)
Lemma includes_first (c : ascii) (s : string) :
  Js.includes c s = true →
  ∃ before after, s = before ++ String c after ∧ Js.includes c before = false.
Proof.
  induction s as [|a s IH]; [done|]. simpl.
  destruct (decide (a = c)) as [->|Hne].
  - intros _. by exists "", s.
  - intros (before & after & -> & Hb)%IH.
    exists (String a before), after. split; [done|].
    simpl. by rewrite decide_False.
Qed.

Lemma needs_quoting_app_false (s r : string) :
  needs_quoting (s ++ r) = false → needs_quoting s = false.
Proof.
  induction s as [|a s IH]; [done|].
  rewrite string_app_cons.
  intros (? & ? & ? & Hq)%needs_quoting_cons_false.
  apply IH in Hq. unfold needs_quoting in *. simpl.
  rewrite !decide_False by done. done.
Qed.

(** C9. [escapeCSV] puts a value between quotes and doubles the quotes in
    it exactly when the value holds a comma, a quote or a line feed, and
    leaves it as it is otherwise; [null] and [undefined] are written as
    the empty field.  Reading the written field back by the quoting
    rules, whether the field ends the input or is followed by a comma or
    a line break, gives the value again and leaves what follows unread,
    when the value was put between quotes or holds no carriage return.
    A value with a carriage return and no comma, quote or line feed is
    written as it is, and the reader ends the field at the first carriage
    return: what it reads is the part of the value before it, as for the
    value of the three code units a, carriage return, b. *)
Theorem escapeCSV_leaves_cr_unquoted (s : string) :
  (needs_quoting s = true ↔
     comma ∈ list_ascii_of_string s ∨ dquote ∈ list_ascii_of_string s
     ∨ newline ∈ list_ascii_of_string s) ∧
  (needs_quoting s = true →
     escapeCSV (Js.Val s) = String dquote (double_quotes s ++ String dquote "")) ∧
  (needs_quoting s = false → escapeCSV (Js.Val s) = s) ∧
  (needs_quoting s = true ∨ (carriage_return ∉ list_ascii_of_string s) →
     read_field (escapeCSV (Js.Val s)) = Some (s, "") ∧
     ∀ rest, field_end rest →
             read_field (escapeCSV (Js.Val s) ++ rest) = Some (s, rest)) ∧
  (needs_quoting s = false → carriage_return ∈ list_ascii_of_string s →
     ∃ before after,
       s = before ++ String carriage_return after ∧
       (carriage_return ∉ list_ascii_of_string before) ∧
       read_field (escapeCSV (Js.Val s))
       = Some (before, String carriage_return after) ∧
       read_field (escapeCSV (Js.Val s)) ≠ Some (s, "")) ∧
  read_field (escapeCSV (Js.Val (String "a" (String carriage_return "b"))))
  = Some ("a", String carriage_return "b") ∧
  escapeCSV Js.Null = "" ∧
  escapeCSV Js.Undefined = "".
Proof.
  split.
  { unfold needs_quoting. rewrite !orb_true_iff, !includes_spec. tauto. }
  split.
  { intros Hq. unfold escapeCSV. by rewrite Hq. }
  split.
  { intros Hq. unfold escapeCSV. by rewrite Hq. }
  split.
  { intros Hs.
    assert (quoted_or_no_cr s) as Hs'.
    { destruct Hs as [Hq|Hcr]; [by left | right].
      destruct (Js.includes carriage_return s) eqn:E; [|done].
      by apply includes_spec in E. }
    split.
    - rewrite <- (read_field_escapeCSV s "") by done.
      by rewrite string_app_empty_r.
    - intros rest Hend. by apply read_field_escapeCSV. }
  split.
  { intros Hq Hcr. apply includes_spec, includes_first in Hcr
      as (before & after & -> & Hb).
    assert (read_field (escapeCSV (Js.Val (before ++ String carriage_return after)))
            = Some (before, String carriage_return after)) as Hread.
    { unfold escapeCSV. rewrite Hq.
      apply read_field_unquoted;
        [by eapply needs_quoting_app_false | done | simpl; auto]. }
    exists before, after. split; [done|]. split.
    - intros Hin%includes_spec. congruence.
    - split; [done|]. rewrite Hread. intros [= _ Habs]. }
  split; [reflexivity|]. done.
Qed.

End CsvFacts.

(** ** The table: orders, DISTINCT ON, INSERT *)

Section StoreFacts.
Context `{Host}.
Import Store.

#[global] Instance time_desc_total : Total time_desc.
Proof. intros r1 r2. unfold time_desc. lia. Qed.

#[global] Instance time_desc_trans : Transitive time_desc.
Proof. intros r1 r2 r3. unfold time_desc. lia. Qed.

#[global] Instance name_le_refl : Reflexive name_le.
Proof. intros [x|]; simpl; done. Qed.

#[global] Instance name_le_trans : Transitive name_le.
Proof.
  intros [x|] [y|] [z|]; simpl; try done. apply (transitivity (R:=String.le)).
Qed.

#[global] Instance name_le_total : Total name_le.
Proof. intros [x|] [y|]; simpl; auto. apply (total String.le). Qed.

Lemma name_le_antisym (a b : option string) :
  name_le a b → name_le b a → a = b.
Proof.
  destruct a as [x|], b as [y|]; simpl; try done.
  intros ??. f_equal. by apply (anti_symm String.le).
Qed.

#[global] Instance name_then_time_desc_refl : Reflexive name_then_time_desc.
Proof. intros r. split; [done | lia]. Qed.

#[global] Instance name_then_time_desc_total : Total name_then_time_desc.
Proof.
  intros r1 r2. unfold name_then_time_desc.
  destruct (decide (haystack_name r1 = haystack_name r2)) as [E|N].
  - rewrite E. destruct (Z.le_ge_cases (time r1) (time r2)).
    + right. split; [done | auto].
    + left. split; [done | auto].
  - destruct (total name_le (haystack_name r1) (haystack_name r2)).
    + left. split; [done | done].
    + right. split; [done | intros E; by rewrite E in N].
Qed.

#[global] Instance name_then_time_desc_trans : Transitive name_then_time_desc.
Proof.
  intros r1 r2 r3 [L12 T12] [L23 T23]. split; [by etrans|].
  intros E13. rewrite E13 in L12.
  pose proof (name_le_antisym _ _ L23 L12) as E23.
  assert (haystack_name r1 = haystack_name r2) as E12 by congruence.
  specialize (T12 E12). specialize (T23 E23). lia.
Qed.


Lemma order_by_time_desc_perm (rows : list Row) :
  order_by_time_desc rows ≡ₚ rows.
Proof. apply merge_sort_Permutation. Qed.

Lemma order_by_name_time_desc_sorted (rows : list Row) :
  StronglySorted name_then_time_desc (order_by_name_time_desc rows).
Proof. apply StronglySorted_merge_sort; apply _. Qed.

Lemma order_by_name_time_desc_perm (rows : list Row) :
  order_by_name_time_desc rows ≡ₚ rows.
Proof. apply merge_sort_Permutation. Qed.

(** What [DISTINCT ON] keeps is part of its input, in the same order. *)
Lemma distinct_on_go_sublist (seen : list (option string)) (rows : list Row) :
  sublist (distinct_on_go seen rows) rows.
Proof.
  revert seen. induction rows as [|r rows IH]; intros seen; simpl; [done|].
  case_decide; [by apply sublist_cons | by apply sublist_skip].
Qed.

Lemma distinct_on_go_unseen seen (rows : list Row) (x : Row) :
  x ∈ distinct_on_go seen rows → haystack_name x ∉ seen.
Proof.
  revert seen. induction rows as [|r rows IH]; intros seen; simpl.
  - by intros ?%elem_of_nil.
  - case_decide as Hs; [by apply IH|].
    intros [->|Hx]%elem_of_cons; [done|].
    apply IH in Hx. by apply not_elem_of_cons in Hx as [_ ?].
Qed.

(** At most one row per name. *)
Lemma distinct_on_go_NoDup seen (rows : list Row) :
  NoDup (haystack_name <$> distinct_on_go seen rows).
Proof.
  revert seen. induction rows as [|r rows IH]; intros seen; simpl.
  - constructor.
  - case_decide; [by apply IH|]. rewrite fmap_cons. constructor; [|by apply IH].
    intros (x & Ex & Hx)%list_elem_of_fmap.
    apply distinct_on_go_unseen in Hx. apply Hx. rewrite <- Ex. by left.
Qed.

(** Every name of the input that is not set aside has its row. *)
Lemma distinct_on_go_complete seen (rows : list Row) (r : Row) :
  r ∈ rows → haystack_name r ∉ seen →
  ∃ x, x ∈ distinct_on_go seen rows ∧ haystack_name x = haystack_name r.
Proof.
  revert seen. induction rows as [|r0 rows IH]; intros seen; simpl.
  - by intros ?%elem_of_nil.
  - intros [->|Hr]%elem_of_cons Hs.
    + rewrite decide_False by done. exists r0. split; [by left | done].
    + case_decide as Hs0.
      * by apply IH.
      * destruct (decide (haystack_name r = haystack_name r0)) as [E|N].
        -- exists r0. split; [by left | done].
        -- destruct (IH (haystack_name r0 :: seen) Hr) as (x & Hx & Ex).
           { by apply not_elem_of_cons. }
           exists x. split; [by right | done].
Qed.

(** On sorted input, the row kept for a name comes first among the rows of
    that name. *)
Lemma distinct_on_go_first (R : relation Row) `{!Reflexive R}
    seen (rows : list Row) (x r : Row) :
  StronglySorted R rows →
  x ∈ distinct_on_go seen rows → r ∈ rows →
  haystack_name r = haystack_name x → R x r.
Proof.
  intros Hsorted. revert seen.
  induction Hsorted as [|r0 rows Hsorted IH Hall]; intros seen; simpl.
  - by intros ?%elem_of_nil.
  - rewrite Forall_forall in Hall.
    case_decide as Hs.
    + intros Hx [->|Hr]%elem_of_cons E; [|by eapply IH].
      apply distinct_on_go_unseen in Hx. by rewrite <- E in Hx.
    + intros [->|Hx]%elem_of_cons [->|Hr]%elem_of_cons E.
      * done.
      * by apply Hall.
      * apply distinct_on_go_unseen in Hx.
        apply not_elem_of_cons in Hx as [Hx _]. by rewrite E in Hx.
      * by eapply IH.
Qed.

(** The names that resolve are the columns of the table. *)
Lemma column_spec (name : string) :
  is_Some (column name) ↔ name ∈ columns.
Proof.
  unfold column, columns. rewrite !elem_of_cons, elem_of_nil.
  repeat case_decide; subst; split; eauto 10.
  - intros [? ?]; done.
  - intros [?|[?|[?|[?|[?|[?|[?|[]]]]]]]]; done.
Qed.

Lemma quality_check_spec (q : option string) :
  quality_check q = true ↔
  q = None ∨ q = Some "good" ∨ q = Some "uncertain" ∨ q = Some "bad".
Proof.
  destruct q as [s|]; simpl; [|split; auto].
  rewrite bool_decide_eq_true, !elem_of_cons, elem_of_nil.
  split.
  - intros [->|[->|[->|[]]]]; auto.
  - intros [?|[?|[?|?]]]; simplify_eq; auto.
Qed.

Lemma insert_values_of (r : Row) (t : Table) :
  quality_check (quality r) = true →
  insert (values_of r) t = Inserted (t ++ [r])%list.
Proof. intros Hq. unfold insert. simpl. rewrite Hq. by destruct r. Qed.

End StoreFacts.

(** ** The latest reading per point *)

Section MonitoringFacts.
Context `{Host}.
Variable getUniqueHaystackNames : Store.Table → option (list string).
Import Store MonitoringRoute.

(** [device_id] and [device_name] are no columns of the table: the
    statement is refused whatever the rows are. *)
Lemma dataSql_select_refused (rows : list Row) :
  select dataSql_select_list rows = None.
Proof. reflexivity. Qed.

Lemma dataSql_refused now f name limit offset (table : Table) :
  dataSql now f name limit offset table = None.
Proof.
  unfold dataSql. destruct (limit_offset _ _ _); [|done].
  apply dataSql_select_refused.
Qed.

(** The selection of [dataSql] keeps at most one row for each point. *)
Lemma dataSql_rows_one_per_point now f name (table : Table) :
  NoDup (haystack_name <$> dataSql_rows now f name table).
Proof. apply distinct_on_go_NoDup. Qed.

Lemma dataSql_rows_in_window now f name (table : Table) (x : Row) :
  x ∈ dataSql_rows now f name table → x ∈ where_ now f name table.
Proof.
  intros Hx. rewrite <- (order_by_name_time_desc_perm (where_ now f name table)).
  eapply elem_of_sublist; [exact Hx | apply distinct_on_go_sublist].
Qed.

(** The row kept for a point has the greatest time of the point's rows in
    the window. *)
Lemma dataSql_rows_latest now f name (table : Table) (x r : Row) :
  x ∈ dataSql_rows now f name table →
  r ∈ where_ now f name table →
  haystack_name r = haystack_name x →
  time r ≤ time x.
Proof.
  intros Hx Hr E.
  rewrite <- (order_by_name_time_desc_perm (where_ now f name table)) in Hr.
  pose proof (distinct_on_go_first name_then_time_desc [] _ x r
                (order_by_name_time_desc_sorted _) Hx Hr E) as [_ Ht].
  by apply Ht.
Qed.

(** Every point with a row in the window has its row in the selection. *)
Lemma dataSql_rows_complete now f name (table : Table) (r : Row) :
  r ∈ where_ now f name table →
  ∃ x, x ∈ dataSql_rows now f name table ∧ haystack_name x = haystack_name r.
Proof.
  intros Hr.
  rewrite <- (order_by_name_time_desc_perm (where_ now f name table)) in Hr.
  apply (distinct_on_go_complete [] _ r Hr). apply not_elem_of_nil.
Qed.

(** [countSql] counts the points of the selection. *)
Lemma countSql_counts_selection now f name (table : Table) :
  countSql now f name table
  = Z.of_nat (length (omap haystack_name (dataSql_rows now f name table))).
Proof.
  unfold countSql, count_distinct_haystack_name. f_equal.
  apply Permutation_length, NoDup_Permutation.
  - apply NoDup_remove_dups.
  - pose proof (dataSql_rows_one_per_point now f name table) as Hnd.
    induction (dataSql_rows now f name table) as [|x l IH]; simpl; [constructor|].
    rewrite fmap_cons in Hnd. apply NoDup_cons in Hnd as [Hx Hnd].
    destruct (haystack_name x) as [n|] eqn:E; simpl; [|by apply IH].
    constructor; [|by apply IH].
    intros (y & Hy & Ey)%list_elem_of_omap. apply Hx.
    apply list_elem_of_fmap. exists y. split; [congruence | done].
  - intros n. rewrite elem_of_remove_dups, !list_elem_of_omap. split.
    + intros (r & Hr & En).
      destruct (dataSql_rows_complete now f name table r Hr) as (x & Hx & Ex).
      exists x. split; [done | congruence].
    + intros (x & Hx & En). exists x. split; [|done].
      by eapply dataSql_rows_in_window.
Qed.

(** [Math.ceil(totalCount / limit)] is the ceiling of the quotient. *)
Lemma Math_ceil_div_ceiling (totalCount limit : Z) :
  0 < limit →
  ∃ n, Math_ceil_div totalCount (Some limit) = Int n ∧
       (n - 1) * limit < totalCount ≤ n * limit.
Proof.
  intros Hl. unfold Math_ceil_div. rewrite decide_False by lia.
  eexists. split; [done|].
  pose proof (Z.div_mod (- totalCount) limit ltac:(lia)).
  pose proof (Z.mod_pos_bound (- totalCount) limit Hl). nia.
Qed.

(** A page is part of the selection. *)
Lemma limit_offset_sublist {A} (l o : option Z) (rows page : list A) :
  limit_offset l o rows = Some page → sublist page rows.
Proof.
  unfold limit_offset. destruct l as [l|], o as [o|]; try done.
  case_decide; [|done]. intros [= <-].
  etrans; [apply sublist_take | apply sublist_drop].
Qed.

(** With a positive page size, every row of the selection is on a page. *)
Lemma limit_offset_covers {A} (limit : Z) (rows : list A) (i : nat) (x : A) :
  0 < limit → rows !! i = Some x →
  ∃ page p, 1 ≤ page ∧
    limit_offset (Some limit) (Some ((page - 1) * limit)) rows = Some p ∧ x ∈ p.
Proof.
  intros Hl Hi.
  exists (Z.of_nat i `div` limit + 1), (take (Z.to_nat limit)
    (drop (Z.to_nat ((Z.of_nat i `div` limit + 1 - 1) * limit)) rows)).
  pose proof (Z.div_pos (Z.of_nat i) limit ltac:(lia) Hl).
  pose proof (Z.div_mod (Z.of_nat i) limit ltac:(lia)).
  pose proof (Z.mod_pos_bound (Z.of_nat i) limit Hl).
  split; [lia|]. split.
  - unfold limit_offset. rewrite decide_True; [done | nia].
  - apply list_elem_of_lookup.
    exists (i - Z.to_nat ((Z.of_nat i `div` limit + 1 - 1) * limit))%nat.
    rewrite lookup_take_lt by nia.
    rewrite lookup_drop. rewrite <- Hi. f_equal. nia.
Qed.

Lemma GET_refused (now : Z) (table : Table) (searchParams : gmap string string) :
  GET getUniqueHaystackNames now table searchParams = Error500.
Proof.
  unfold GET. destruct (Sql.timeFilter _ _ _ _) as [f|]; simpl; [|done].
  by rewrite dataSql_refused.
Qed.

(** C4. The handler of the listing answers every request with the error
    response, whatever the window, the point filter, the page and the
    table are: it returns no body, hence no reading and no pagination. *)
Theorem latest_per_point_listing_fails (now : Z) (table : Table)
    (searchParams : gmap string string) :
  GET getUniqueHaystackNames now table searchParams = Error500 ∧
  (∀ body, GET getUniqueHaystackNames now table searchParams ≠ Ok body) ∧
  readings_of (GET getUniqueHaystackNames now table searchParams) = [].
Proof. rewrite GET_refused. repeat split. done. Qed.

(** C2. A row that has been written and is the most recent one of its
    point in the window is the very row the listing's query selects, on
    one of its pages; the select list names the six fixed columns, which
    are columns of the table, and it does not name [metadata]. *)
Theorem latest_per_point_selects_written_row (now : Z) (f : time_filter)
    (name : option string) (t t' : Table) (r : Row) :
  insert (values_of r) t = Inserted t' →
  in_window now f r && haystack_filter name r = true →
  (∀ r', r' ∈ where_ now f name t' →
         haystack_name r' = haystack_name r → time r' < time r ∨ r' = r) →
  r ∈ dataSql_rows now f name t' ∧
  (∀ limit, 0 < limit →
     ∃ page p, 1 ≤ page ∧
       limit_offset (Some limit) (Some ((page - 1) * limit))
         (dataSql_rows now f name t') = Some p ∧ r ∈ p) ∧
  (∀ x, x ∈ dataSql_rows now f name t' →
        haystack_name x = haystack_name r → x = r) ∧
  (∀ c, c ∈ ["time"; "haystack_name"; "dis"; "value"; "units"; "quality"] →
        c ∈ dataSql_select_list ∧ is_Some (column c)) ∧
  "metadata" ∉ dataSql_select_list.
Proof.
  intros Hins Hw Hlatest.
  assert (t' = (t ++ [r])%list) as ->.
  { unfold insert in Hins. simpl in Hins.
    destruct (quality_check (quality r)); [|done].
    injection Hins as <-. by destruct r. }
  assert (r ∈ where_ now f name (t ++ [r])%list) as Hr.
  { unfold where_. apply list_elem_of_filter. split; [by rewrite Hw|].
    apply elem_of_app. right. by left. }
  assert (∀ x, x ∈ dataSql_rows now f name (t ++ [r])%list →
               haystack_name x = haystack_name r → x = r) as Huniq.
  { intros x Hx Ex.
    pose proof (dataSql_rows_latest _ _ _ _ x r Hx Hr (eq_sym Ex)) as Hle.
    destruct (Hlatest x (dataSql_rows_in_window _ _ _ _ x Hx) Ex); [lia|done]. }
  assert (r ∈ dataSql_rows now f name (t ++ [r])%list) as Hin.
  { destruct (dataSql_rows_complete _ _ _ _ r Hr) as (x & Hx & Ex).
    pose proof (Huniq x Hx Ex) as Exr. by rewrite Exr in Hx. }
  split; [done|]. split; [|split; [done|]].
  - intros limit Hl. apply list_elem_of_lookup in Hin as [i Hi].
    by eapply limit_offset_covers.
  - split.
    + intros c Hc. unfold dataSql_select_list.
      repeat (apply elem_of_cons in Hc as [->|Hc];
              [split; [by_computation | by eexists]|]).
      by apply elem_of_nil in Hc.
    + by_computation.
Qed.

End MonitoringFacts.

(** ** Writing to the store *)

Section WriteFacts.
Context `{Host}.
Import Store.

Lemma insert_appends (r : Row) (t : Table) :
  quality_check (quality r) = true →
  insert (values_of r) t = Inserted (t ++ [r])%list.
Proof. apply insert_values_of. Qed.

Lemma insert_refused (v : Values) (t : Table) (tm : Z) :
  v_time v = Some tm → quality_check (v_quality v) = false →
  insert v t = Rejected check_quality.
Proof. intros Ht Hq. unfold insert. by rewrite Ht, Hq. Qed.

(** C3. Two readings with the same time and the same point, each of them
    admissible for the table's quality check, are both appended, one
    after the other: the table grows by two rows and holds both, also
    when the two readings are equal in every column. *)
Theorem duplicates_are_kept (t : Table) (r1 r2 : Row) :
  quality_check (quality r1) = true →
  quality_check (quality r2) = true →
  time r1 = time r2 →
  haystack_name r1 = haystack_name r2 →
  ∃ t1 t2,
    insert (values_of r1) t = Inserted t1 ∧
    insert (values_of r2) t1 = Inserted t2 ∧
    t2 = (t ++ [r1; r2])%list ∧
    length t2 = S (S (length t)) ∧
    t2 !! length t = Some r1 ∧
    t2 !! S (length t) = Some r2.
Proof.
  intros Hq1 Hq2 _ _.
  exists (t ++ [r1])%list, (t ++ [r1; r2])%list.
  split; [by apply insert_appends|].
  split.
  { rewrite (insert_appends r2) by done. by rewrite <- (assoc_L (++)). }
  split; [done|]. split.
  { rewrite length_app. simpl. lia. }
  split.
  - unfold Table in *. rewrite lookup_app_r by lia. by rewrite Nat.sub_diag.
  - unfold Table in *. rewrite lookup_app_r by lia.
    by replace (S (length t) - length t)%nat with 1%nat by lia.
Qed.

End WriteFacts.

(** ** The translator *)

Section TranslatorFacts.
Context `{Translator.Wire}.
Import Store Translator.

Lemma translate_inr topic raw arrival v :
  translate topic raw arrival = inr v →
  ∃ payload val,
    decode raw = Some payload ∧
    value_field (payload !! "value") = inr val ∧
    v = {| v_time := Some (default arrival (explicit_timestamp payload));
           v_haystack_name := text_field (payload !! "haystack_name");
           v_dis := text_field (payload !! "dis");
           v_value := val;
           v_units := text_field (payload !! "units");
           v_quality := text_field (payload !! "quality");
           v_metadata := Given (Some (dynamic_attributes payload)) |}.
Proof.
  unfold translate. destruct (decode raw) as [payload|]; [|done].
  destruct (value_field _) as [e|val] eqn:E; [done|].
  intros [= <-]. by exists payload, val.
Qed.

(** C1. The translator keeps the quality token of the payload as it is.
    The table's check on the column then decides: a reading whose token
    is not one of good, uncertain, bad is refused by the insert and the
    table stays as it was; a reading whose token is one of the three is
    appended with that token; and a reading of a payload without a
    quality is appended with no quality. *)
Theorem unknown_quality_kept_then_refused (topic raw : string) (arrival : Z)
    (payload : gmap string Json) (v : Values) (t : Table) :
  decode raw = Some payload →
  translate topic raw arrival = inr v →
  (∀ token, payload !! "quality" = Some (JStr token) →
     v_quality v = Some token ∧
     (token ∉ ["good"; "uncertain"; "bad"] →
        insert v t = Rejected check_quality ∧
        ingest topic raw arrival t = (t, false)) ∧
     (token ∈ ["good"; "uncertain"; "bad"] →
        ∃ r, insert v t = Inserted (t ++ [r])%list ∧ quality r = Some token ∧
             ingest topic raw arrival t = ((t ++ [r])%list, true))) ∧
  (payload !! "quality" = None →
     v_quality v = None ∧
     ∃ r, insert v t = Inserted (t ++ [r])%list ∧ quality r = None ∧
          ingest topic raw arrival t = ((t ++ [r])%list, true)).
Proof.
  intros Hd Ht.
  destruct (translate_inr _ _ _ _ Ht) as (payload' & val & Hd' & _ & ->).
  assert (payload' = payload) as -> by congruence.
  split.
  - intros token Hq. simpl. rewrite Hq. simpl. split; [done|]. split.
    + intros Hout. unfold ingest. rewrite Ht. unfold insert. simpl.
      rewrite Hq. simpl. by rewrite bool_decide_eq_false_2.
    + intros Hin. unfold ingest. rewrite Ht. unfold insert. simpl.
      rewrite Hq. simpl. rewrite bool_decide_eq_true_2 by done.
      eexists. split; [reflexivity|]. by split.
  - intros Hq. simpl. rewrite Hq. simpl. split; [done|].
    unfold ingest. rewrite Ht. unfold insert. simpl. rewrite Hq. simpl.
    eexists. split; [reflexivity|]. by split.
Qed.

(** C6. A payload whose keys are all consumed by fixed columns is
    translated with an empty attribute bag, given and not null, and the
    row stored for it holds the empty bag; the default of the column is
    the empty bag as well. *)
Theorem fixed_only_payload_has_empty_bag (topic raw : string) (arrival : Z)
    (payload : gmap string Json) (v : Values) (t t' : Table) :
  decode raw = Some payload →
  dom payload ⊆ list_to_set (timestamp_key :: fixed_keys) →
  translate topic raw arrival = inr v →
  insert v t = Inserted t' →
  v_metadata v = Given (Some ∅) ∧
  (∃ r, t' = (t ++ [r])%list ∧ metadata r = Some ∅) ∧
  metadata_or_default Omitted = Some ∅.
Proof.
  intros Hd Hkeys Ht Hins.
  destruct (translate_inr _ _ _ _ Ht) as (payload' & val & Hd' & _ & ->).
  assert (payload' = payload) as -> by congruence.
  assert (dynamic_attributes payload = ∅) as Hempty.
  { apply map_eq. intros k. rewrite lookup_empty.
    apply map_lookup_filter_None. right. intros x Hx Hk. apply Hk.
    apply (elem_of_list_to_set (C:=gset string)), Hkeys, elem_of_dom.
    by exists x. }
  rewrite Hempty in *. split; [done|]. split; [|done].
  unfold insert in Hins. simpl in Hins.
  destruct (quality_check _); [|done].
  injection Hins as <-. eexists. split; [reflexivity | done].
Qed.

(** C7. Translating a payload that carries an explicit timestamp gives
    the same outcome whatever the arrival time is, so translating it
    twice gives equal readings; without an explicit timestamp the two
    outcomes are equal but for the time of the reading, which is the
    arrival time of each translation. *)
Theorem translate_twice (topic raw : string) (arrival1 arrival2 : Z) :
  (is_Some (decode raw ≫= explicit_timestamp) →
     translate topic raw arrival1 = translate topic raw arrival2) ∧
  (decode raw ≫= explicit_timestamp = None →
     equal_but_time (translate topic raw arrival1) (translate topic raw arrival2) ∧
     ∀ v1 v2, translate topic raw arrival1 = inr v1 →
              translate topic raw arrival2 = inr v2 →
              v_time v1 = Some arrival1 ∧ v_time v2 = Some arrival2).
Proof.
  unfold translate. destruct (decode raw) as [payload|]; simpl.
  - destruct (value_field _) as [e|val]; simpl.
    + repeat split; done.
    + split.
      * intros [ts Hts]. by rewrite Hts.
      * intros Hts. split; [done|]. intros v1 v2 [= <-] [= <-].
        rewrite Hts. done.
  - repeat split; done.
Qed.

End TranslatorFacts.

(** ** Reading the CSV export back *)

Section CsvReadFacts.
Context `{Host}.
Import Csv CsvLine.

Lemma length_string_app (a b : string) :
  String.length (a ++ b) = (String.length a + String.length b)%nat.
Proof. induction a as [|c a IH]; [done|]. simpl. by rewrite IH. Qed.

Lemma join_cons2 (sep x y : string) (l : list string) :
  Js.join sep (x :: y :: l) = x ++ sep ++ Js.join sep (y :: l).
Proof. reflexivity. Qed.

Lemma length_join (c : ascii) (l : list string) :
  (length l ≤ S (String.length (Js.join (String c "") l)))%nat.
Proof.
  induction l as [|x [|y l] IH]; [simpl; lia | simpl; lia |].
  rewrite join_cons2, !length_string_app.
  change (String.length (String c "")) with 1%nat. simpl in *. lia.
Qed.

(** The line of a record: its fields, each written by [escapeCSV],
    joined by commas. *)
Lemma read_record_joined (fields : list string) (tail out : string) (fuel : nat) :
  fields ≠ [] → Forall quoted_or_no_cr fields → (length fields ≤ fuel)%nat →
  tail = "" ∧ out = "" ∨ tail = String newline out →
  read_record fuel (Js.join "," (map (λ f, escapeCSV (Js.Val f)) fields) ++ tail)
  = Some (fields, out).
Proof.
  intros Hne Hall Hfuel Htail.
  assert (field_end tail) as Hend
    by (destruct Htail as [[-> _] | ->]; simpl; auto).
  revert fuel Hne Hfuel.
  induction fields as [|f [|g fields] IH]; intros fuel Hne Hfuel; [done| |].
  - destruct fuel as [|fuel]; [simpl in Hfuel; lia|].
    apply Forall_inv in Hall.
    cbn [map Js.join read_record].
    rewrite read_field_escapeCSV by done. cbn [mbind option_bind].
    destruct Htail as [[-> ->] | ->]; [done|].
    rewrite decide_False by done. by rewrite decide_True.
  - destruct fuel as [|fuel]; [simpl in Hfuel; lia|].
    apply Forall_cons in Hall as [Hf Hall].
    change (Js.join "," (map (λ f, escapeCSV (Js.Val f)) (f :: g :: fields)))
      with (escapeCSV (Js.Val f)
            ++ String comma
                 (Js.join "," (map (λ f, escapeCSV (Js.Val f)) (g :: fields)))).
    rewrite string_app_assoc, string_app_cons.
    cbn [read_record].
    rewrite read_field_escapeCSV by (simpl; auto).
    cbn [mbind option_bind]. rewrite decide_True by done.
    rewrite IH; [done | done | done | simpl in *; lia].
Qed.

Lemma read_line_joined (fields : list string) :
  fields ≠ [] → Forall quoted_or_no_cr fields →
  read_line (Js.join "," (map (λ f, escapeCSV (Js.Val f)) fields)) = Some fields.
Proof.
  intros Hne Hall. unfold read_line.
  rewrite <- (string_app_empty_r (Js.join "," _)) at 2.
  rewrite (read_record_joined fields "" ""); [done | done | done | | by left].
  rewrite <- (length_map (λ f, escapeCSV (Js.Val f))). apply length_join.
Qed.

(** A text of lines joined by line feeds, each line a record of two
    fields or more. *)
Lemma read_records_joined (records : list (list string)) (fuel : nat) :
  records ≠ [] →
  Forall (λ fields, (2 ≤ length fields)%nat ∧ Forall quoted_or_no_cr fields)
    records →
  (length records ≤ fuel)%nat →
  read_records fuel
    (Js.join (String newline "")
       (map (λ fields, Js.join "," (map (λ f, escapeCSV (Js.Val f)) fields))
          records))
  = Some records.
Proof.
  set (line := λ fields, Js.join "," (map (λ f, escapeCSV (Js.Val f)) fields)).
  intros Hne Hall. revert fuel.
  induction records as [|fs [|gs records] IH]; intros fuel Hfuel; [done| |].
  - destruct fuel as [|fuel]; [simpl in Hfuel; lia|].
    apply Forall_inv in Hall as [Hlen Hfs].
    cbn [map Js.join read_records].
    rewrite <- (string_app_empty_r (line fs)) at 2.
    rewrite (read_record_joined fs "" ""); [done | | done | | by left].
    + intros ->. simpl in Hlen. lia.
    + unfold line. rewrite <- (length_map (λ f, escapeCSV (Js.Val f))).
      apply length_join.
  - destruct fuel as [|fuel]; [simpl in Hfuel; lia|].
    apply Forall_cons in Hall as [[Hlen Hfs] Hall].
    change (Js.join (String newline "") (map line (fs :: gs :: records)))
      with (line fs ++ String newline
              (Js.join (String newline "") (map line (gs :: records)))).
    set (rest := Js.join (String newline "") (map line (gs :: records))) in *.
    cbn [read_records].
    rewrite (read_record_joined fs (String newline rest) rest);
      [ | intros ->; simpl in Hlen; lia | done | | by right ].
    + cbn [mbind option_bind].
      assert (rest ≠ "") as Hrest.
      { pose proof (Forall_inv Hall) as [Hg _].
        unfold rest. intros Hempty.
        assert (String.length (line gs) = 0%nat) as Hzero.
        { destruct records as [|hs records].
          - simpl in Hempty. by rewrite Hempty.
          - change (Js.join (String newline "") (map line (gs :: hs :: records)))
              with (line gs ++ String newline
                      (Js.join (String newline "") (map line (hs :: records))))
              in Hempty.
            by destruct (line gs). }
        pose proof (length_join ","%char (map (λ f, escapeCSV (Js.Val f)) gs)) as Hl.
        rewrite length_map in Hl. fold (line gs) in Hl. lia. }
      destruct rest as [|c rest'] eqn:Erest; [done|].
      rewrite IH; [done | done | done | simpl in *; lia].
    + rewrite length_string_app.
      pose proof (length_join ","%char (map (λ f, escapeCSV (Js.Val f)) fs)) as Hl.
      rewrite length_map in Hl. fold (line fs) in Hl. lia.
Qed.

Lemma escapeCSV_clean (s : string) :
  needs_quoting s = false → escapeCSV (Js.Val s) = s.
Proof. intros Hq. unfold escapeCSV. by rewrite Hq. Qed.

Lemma escapeCSV_of_text (s : option string) :
  escapeCSV (ExportRoute.of_text s) = escapeCSV (Js.Val (default "" s)).
Proof. by destruct s. Qed.

Lemma metadata_cell_text (reading : Store.Row) (key : string) :
  ExportRoute.metadata_cell reading key
  = escapeCSV (Js.Val (metadata_text reading key)).
Proof.
  unfold ExportRoute.metadata_cell, metadata_text.
  destruct (ExportRoute.metadata_get reading key) as [[[]|]|]; done.
Qed.

Lemma row_escapes_texts (keys : list string) (reading : Store.Row) :
  needs_quoting (Date_toISOString (Store.time reading)) = false →
  needs_quoting (from_option Number_toString "" (Store.value reading)) = false →
  ExportRoute.row keys reading
  = map (λ f, escapeCSV (Js.Val f)) (texts keys reading).
Proof.
  intros Ht Hv. unfold ExportRoute.row, texts.
  rewrite map_app. cbn [map].
  rewrite !escapeCSV_of_text, (escapeCSV_clean _ Ht), (escapeCSV_clean _ Hv).
  rewrite map_map. f_equal. apply map_ext. intros key.
  apply metadata_cell_text.
Qed.

Lemma plain_quoted_or_no_cr (s : string) : plain s → quoted_or_no_cr s.
Proof. intros [_ ?]. by right. Qed.

Lemma headers_unescaped (readings : list Store.Row) :
  Forall plain (ExportRoute.sortedMetadataKeys readings) →
  map (λ f, escapeCSV (Js.Val f)) (ExportRoute.headers readings)
  = ExportRoute.headers readings ∧
  Forall quoted_or_no_cr (ExportRoute.headers readings).
Proof.
  intros Hkeys. unfold ExportRoute.headers. split.
  - rewrite map_app. f_equal.
    induction Hkeys as [|k ks [Hk _] _ IH]; [done|].
    cbn [map]. by rewrite (escapeCSV_clean k Hk), IH.
  - apply Forall_app. split.
    + unfold ExportRoute.fixed_headers.
      repeat (apply Forall_cons; split; [by right|]). apply Forall_nil_2.
    + eapply Forall_impl; [exact Hkeys | apply plain_quoted_or_no_cr].
Qed.

Lemma rows_escape_texts (keys : list string) (rows : list Store.Row) :
  Forall (λ r, plain (Date_toISOString (Store.time r)) ∧
               plain (from_option Number_toString "" (Store.value r)) ∧
               Forall quoted_or_no_cr (texts keys r)) rows →
  map (λ r, Js.join "," (ExportRoute.row keys r)) rows
  = map (λ fields, Js.join "," (map (λ f, escapeCSV (Js.Val f)) fields))
      (map (texts keys) rows) ∧
  Forall (λ fields, (2 ≤ length fields)%nat ∧ Forall quoted_or_no_cr fields)
    (map (texts keys) rows).
Proof.
  induction 1 as [|r rows ([Ht _] & [Hv _] & Hr) _ [IH1 IH2]]; [done|].
  cbn [map]. split.
  - by rewrite IH1, (row_escapes_texts keys r Ht Hv).
  - apply Forall_cons. split; [|done]. split; [|done].
    unfold texts. rewrite length_app. simpl. lia.
Qed.

End CsvReadFacts.

(** ** The export *)

Section ExportFacts.
Context `{Host}.
Import Store ExportRoute.

Lemma Object_keys_spec (m : gmap string Json) (k : string) :
  k ∈ Object_keys m ↔ is_Some (m !! k).
Proof.
  unfold Object_keys. rewrite list_elem_of_fmap. split.
  - intros ([k' v] & -> & Hkv). apply elem_of_map_to_list in Hkv. by exists v.
  - intros [v Hv]. exists (k, v). split; [done|]. by apply elem_of_map_to_list.
Qed.

Lemma Set_add_spec (set : list string) (key k : string) :
  k ∈ Set_add set key ↔ k ∈ set ∨ k = key.
Proof.
  unfold Set_add. case_decide as Hin.
  - split; [auto | intros [?| ->]; done].
  - rewrite elem_of_app, list_elem_of_singleton. done.
Qed.

Lemma Set_add_NoDup (set : list string) (key : string) :
  NoDup set → NoDup (Set_add set key).
Proof.
  intros Hnd. unfold Set_add. case_decide as Hin; [done|].
  apply NoDup_app. split; [done|]. split; [|apply NoDup_singleton].
  intros x Hx ->%list_elem_of_singleton. done.
Qed.

Lemma foldl_Set_add_spec (keys set : list string) (k : string) :
  k ∈ foldl Set_add set keys ↔ k ∈ set ∨ k ∈ keys.
Proof.
  revert set. induction keys as [|key keys IH]; intros set; simpl.
  - rewrite elem_of_nil. tauto.
  - rewrite IH, Set_add_spec, elem_of_cons. tauto.
Qed.

Lemma foldl_Set_add_NoDup (keys set : list string) :
  NoDup set → NoDup (foldl Set_add set keys).
Proof.
  revert set. induction keys as [|key keys IH]; intros set Hnd; simpl; [done|].
  by apply IH, Set_add_NoDup.
Qed.

Lemma collect_spec (readings : list Row) (set : list string) (k : string) :
  k ∈ collect set readings ↔ k ∈ set ∨ ∃ r, r ∈ readings ∧ has_key r k.
Proof.
  revert set. induction readings as [|r readings IH]; intros set.
  - simpl. split; [auto | intros [?|(r & Hr & _)]; [done|]].
    by apply elem_of_nil in Hr.
  - change (collect set (r :: readings))
      with (collect match metadata r with
                    | Some m => foldl Set_add set (Object_keys m)
                    | None => set
                    end readings).
    rewrite IH. unfold has_key. destruct (metadata r) as [m|] eqn:Em.
    + rewrite foldl_Set_add_spec, Object_keys_spec. split.
      * intros [[?|Hk]|(r' & Hr' & Hk)]; [by left| |].
        -- right. exists r. split; [by left|]. exists m. by rewrite Em.
        -- right. exists r'. split; [by right | done].
      * intros [?|(r' & [->|Hr']%elem_of_cons & m' & Em' & Hk)]; [by left; left| |].
        -- left. right. congruence.
        -- right. exists r'. split; [done|]. by exists m'.
    + split.
      * intros [?|(r' & Hr' & Hk)]; [by left|].
        right. exists r'. split; [by right | done].
      * intros [?|(r' & [->|Hr']%elem_of_cons & m' & Em' & Hk)]; [by left| |].
        -- congruence.
        -- right. exists r'. split; [done|]. by exists m'.
Qed.

Lemma collect_NoDup (readings : list Row) (set : list string) :
  NoDup set → NoDup (collect set readings).
Proof.
  revert set. induction readings as [|r readings IH]; intros set Hnd; [done|].
  apply IH. destruct (metadata r); [by apply foldl_Set_add_NoDup | done].
Qed.

Lemma sortedMetadataKeys_perm (readings : list Row) :
  sortedMetadataKeys readings ≡ₚ metadataKeys readings.
Proof. apply merge_sort_Permutation. Qed.

Lemma String_of_inherited_not_empty (k : string) : String_of_inherited k ≠ "".
Proof. unfold String_of_inherited. repeat case_decide; discriminate. Qed.

(** C5. The header of the CSV export names the six fixed columns and
    then the keys of the attribute bags of the exported readings, each
    key once and in ascending order.  The header line is written without
    [escapeCSV]: when no key holds a comma, a quote or a line break, and
    the texts of the times and numbers hold none either and no cell holds
    a carriage return outside quotes, the export reads back, by the
    quoting rules, as the record of the header names followed by one
    record for each reading, with one cell for every header column.  The
    cell under a key is written by [escapeCSV] and holds the text of the
    reading's value for that key, and is empty when the value is null, when the reading has no bag, and
    when the bag has no such key and the key is no name that every object
    inherits; under a key that is such a name (constructor, toString,
    ...) the cell of a reading that lacks the key is not empty: it holds
    the text of the inherited member. *)
Theorem csv_header_and_cells (readings : list Row) :
  let keys := sortedMetadataKeys readings in
  headers readings
  = (["time"; "haystack_name"; "display_name"; "value"; "units"; "quality"]
     ++ keys)%list ∧
  StronglySorted String.le keys ∧
  NoDup keys ∧
  (∀ k, k ∈ keys ↔ ∃ r, r ∈ readings ∧ has_key r k) ∧
  (Forall Csv.plain keys →
   Forall (λ r, Csv.plain (Date_toISOString (time r)) ∧
                Csv.plain (from_option Number_toString "" (value r)) ∧
                Forall Csv.quoted_or_no_cr (CsvLine.texts keys r)) readings →
   CsvLine.read_csv (csvContent readings)
   = Some (headers readings :: map (CsvLine.texts keys) readings)) ∧
  (∀ r,
     length (CsvLine.texts keys r) = length (headers readings) ∧
     ∀ i k, keys !! i = Some k →
       let text :=
         match metadata r with
         | None => ""
         | Some m =>
             match m !! k with
             | Some JNull => ""
             | Some (JStr s) => s
             | Some (JNum n) => Number_toString n
             | Some (JBool true) => "true"
             | Some (JBool false) => "false"
             | Some val => String_of val
             | None =>
                 if decide (k ∈ Sql.Object_prototype_keys)
                 then String_of_inherited k
                 else ""
             end
         end in
       CsvLine.texts keys r !! (6 + i)%nat = Some text ∧
       row keys r !! (6 + i)%nat = Some (Csv.escapeCSV (Js.Val text))) ∧
  (∀ k, k ∈ Sql.Object_prototype_keys → String_of_inherited k ≠ "").
Proof.
  intros keys. split; [done|]. split.
  { apply StronglySorted_merge_sort; apply _. }
  split.
  { unfold keys. rewrite sortedMetadataKeys_perm. apply (collect_NoDup _ []), NoDup_nil_2. }
  split.
  { intros k. unfold keys. rewrite sortedMetadataKeys_perm.
    unfold metadataKeys. rewrite collect_spec.
    rewrite elem_of_nil. tauto. }
  split.
  { intros Hkeys Hrows.
    destruct (headers_unescaped readings Hkeys) as [Hid Hheaders].
    destruct (rows_escape_texts keys readings Hrows) as [Hlines Hcells].
    unfold CsvLine.read_csv, csvContent, csvRows. fold keys.
    rewrite Hlines. rewrite <- Hid at 1 2.
    apply (read_records_joined (headers readings :: map (CsvLine.texts keys) readings)).
    - done.
    - apply Forall_cons. split; [|done]. split; [|done].
      unfold headers. rewrite length_app. simpl. lia.
    - match goal with
      | |- (_ ≤ S (String.length (Js.join _ ?l)))%nat =>
          pose proof (length_join Csv.newline l) as Hl
      end.
      cbn [length] in *. rewrite !length_map in Hl. by rewrite length_map. }
  split.
  { intros r. split.
    - unfold CsvLine.texts, headers, fixed_headers.
      rewrite !length_app, length_map. done.
    - intros i k Hk text.
      assert (CsvLine.metadata_text r k = text) as Htext.
      { unfold text, CsvLine.metadata_text, metadata_get.
        destruct (metadata r) as [m|]; [|done]. simpl.
        destruct (m !! k) as [[| [|] | | | |]|]; try done.
        by case_decide. }
      rewrite <- Htext. split.
      + unfold CsvLine.texts. rewrite lookup_app_r by (simpl; lia).
        replace (6 + i - _)%nat with i by (simpl; lia).
        by rewrite list_lookup_fmap, Hk.
      + unfold row. rewrite lookup_app_r by (simpl; lia).
        replace (6 + i - _)%nat with i by (simpl; lia).
        rewrite list_lookup_fmap, Hk. by rewrite <- metadata_cell_text. }
  intros k _. apply String_of_inherited_not_empty.
Qed.

Lemma select_all_columns (rows : list Row) :
  is_Some (select sql_select_list rows).
Proof. by eexists. Qed.

Lemma sql_spec now f name (table : Table) :
  sql now f name table
  = Some (take (Z.to_nat LIMIT) (order_by_time_desc (where_ now f name table))).
Proof. reflexivity. Qed.





End ExportFacts.

(** ** Delete: the preview and the deletion *)

Section DeleteFacts.
Context `{Host}.
Import Store DeleteRoute.

(** The rows a condition selects and the rows it spares make up the
    table. *)
Lemma length_selected_spared (cond : Row → bool) (table : Table) :
  Z.of_nat (length (filter (λ r, cond r = true) table))
  = Z.of_nat (length table) - Z.of_nat (length (delete_where cond table)).
Proof.
  unfold delete_where, Table in *.
  induction table as [|r table IH]; [done|].
  rewrite !filter_cons.
  destruct (cond r); repeat case_decide; simpl; try done; lia.
Qed.

Lemma filter_every_row (table : list Row) :
  filter (λ _ : Row, true = true) table = table.
Proof.
  induction table as [|r table IH]; [done|].
  rewrite filter_cons, decide_True by done. by rewrite IH.
Qed.

Lemma name_in_elem_of (names : list string) (r : Row) :
  name_in names r = true ↔ haystack_name r ∈ Some <$> names.
Proof.
  unfold name_in. destruct (haystack_name r) as [m|].
  - rewrite bool_decide_eq_true, list_elem_of_fmap. split.
    + intros Hm. by exists m.
    + intros (n & [= ->] & Hn). done.
  - rewrite list_elem_of_fmap. split; [done | intros (n & ? & _); done].
Qed.

Lemma in_window_between (now f t : Z) (r : Row) :
  in_window now (Between f t) r = true ↔ f ≤ time r ≤ t.
Proof.
  unfold in_window. rewrite andb_true_iff, !bool_decide_eq_true. lia.
Qed.

(** C8. For a preview request and a delete request that carry the same
    type, the same list of names (the list the preview reads from its
    comma-separated parameter) and the same bounds, the two handlers take
    the same branch: when the preview answers with a count, the deletion
    succeeds and removes exactly that many rows; when one fails or
    refuses, so does the other and the table is unchanged.  A request of
    type points with a list of names that is not empty is answered with
    the number of rows whose name is in the list, and the deletion
    removes these rows and no other; a request of type time_range with
    two bounds that are dates is answered with the number of rows whose
    time lies between them, bounds included, and the deletion removes
    these rows and no other. *)
Theorem preview_count_matches_delete (table : Table)
    (searchParams : gmap string string) (body : DeleteRequest) :
  type body = searchParams !! "type" →
  haystack_names body
  = (λ s, Js.filter_Boolean (Js.split "," s)) <$> searchParams !! "haystack_names" →
  from body = searchParams !! "from" →
  to body = searchParams !! "to" →
  match GET table searchParams, DELETE table body with
  | Count count, (table', Success) =>
      count = Z.of_nat (length table) - Z.of_nat (length table') ∧
      match choose (type body) (haystack_names body) (from body) (to body) with
      | Points names =>
          table' = filter (λ r, name_in names r = false) table ∧
          count = Z.of_nat (length (filter (λ r, name_in names r = true) table))
      | Time_range from to =>
          ∃ f t, Date_parse from = Some f ∧ Date_parse to = Some t ∧
            table' = filter (λ r, ¬ (f ≤ time r ≤ t)) table ∧
            count = Z.of_nat (length (filter (λ r, f ≤ time r ≤ t) table))
      | All => table' = [] ∧ count = Z.of_nat (length table)
      | Invalid => False
      end
  | PreviewInvalid400, (table', DeleteInvalid400) => table' = table
  | PreviewError500, (table', DeleteError500) => table' = table
  | _, _ => False
  end ∧
  (∀ names,
     type body = Some "points" → haystack_names body = Some names → names ≠ [] →
     GET table searchParams
     = Count (Z.of_nat (length (filter (λ r, haystack_name r ∈ Some <$> names) table))) ∧
     DELETE table body
     = (filter (λ r, haystack_name r ∉ Some <$> names) table, Success)) ∧
  (∀ from_ to_ f t,
     type body = Some "time_range" →
     from body = Some from_ → from_ ≠ "" → Date_parse from_ = Some f →
     to body = Some to_ → to_ ≠ "" → Date_parse to_ = Some t →
     GET table searchParams
     = Count (Z.of_nat (length (filter (λ r, f ≤ time r ≤ t) table))) ∧
     DELETE table body = (filter (λ r, ¬ (f ≤ time r ≤ t)) table, Success)).
Proof.
  intros Etype Enames Efrom Eto. unfold GET, DELETE.
  rewrite <- Etype, <- Enames, <- Efrom, <- Eto.
  split; [|split].
  - destruct (choose _ _ _ _) as [names|from to| |]; simpl.
    + split; [apply length_selected_spared | done].
    + destruct (Date_parse from) as [f|]; simpl; [|done].
      destruct (Date_parse to) as [t|]; simpl; [|done].
      split; [apply length_selected_spared|].
      exists f, t. split; [done|]. split; [done|].
      unfold delete_where. split.
      * apply list_filter_iff. intros r. unfold in_window.
        rewrite andb_false_iff, !bool_decide_eq_false. lia.
      * f_equal. f_equal. apply list_filter_iff. intros r. unfold in_window.
        rewrite andb_true_iff, !bool_decide_eq_true. lia.
    + rewrite filter_every_row. split; [simpl; lia | done].
    + done.
  - intros names Ht En Hne.
    assert (filter (λ r, haystack_name r ∈ Some <$> names) table
            = filter (λ r, name_in names r = true) table) as ->.
    { apply list_filter_iff. intros r. by rewrite name_in_elem_of. }
    assert (filter (λ r, haystack_name r ∉ Some <$> names) table
            = delete_where (name_in names) table) as ->.
    { unfold delete_where. apply list_filter_iff. intros r.
      rewrite <- name_in_elem_of. by destruct (name_in names r). }
    rewrite Ht, En. unfold choose. rewrite decide_True by done.
    destruct names as [|n ns]; [done|]. done.
  - intros from_ to_ f t Ht Ef Hf Pf Et Hto Pt.
    assert (filter (λ r, f ≤ time r ≤ t) table
            = filter (λ r, in_window 0 (Between f t) r = true) table) as ->.
    { apply list_filter_iff. intros r. by rewrite in_window_between. }
    assert (filter (λ r, ¬ (f ≤ time r ≤ t)) table
            = delete_where (in_window 0 (Between f t)) table) as ->.
    { unfold delete_where. apply list_filter_iff. intros r.
      rewrite <- (in_window_between 0). by destruct (in_window 0 (Between f t) r). }
    rewrite Ht, Ef, Et. unfold choose.
    rewrite decide_False by done. rewrite decide_True by done.
    unfold Js.or_null. rewrite !decide_False by done. simpl.
    by rewrite Pf, Pt.
Qed.

End DeleteFacts.

(** ** The properties on the sample data *)

Section OnSamples.
Import Samples.

Example escapeCSV_plain : Csv.escapeCSV (Js.Val "degC") = "degC".
Proof. reflexivity. Qed.

Example escapeCSV_comma :
  Csv.escapeCSV (Js.Val "a,b")
  = String Csv.dquote ("a,b" ++ String Csv.dquote "").
Proof. reflexivity. Qed.

Example split_names :
  Js.filter_Boolean (Js.split "," "ahu.temp,,vav.flow") = ["ahu.temp"; "vav.flow"].
Proof. reflexivity. Qed.

Example sample_headers :
  ExportRoute.headers table
  = ["time"; "haystack_name"; "display_name"; "value"; "units"; "quality";
     "device_id"; "timezone"].
Proof. reflexivity. Qed.

Example sample_row :
  ExportRoute.row (ExportRoute.sortedMetadataKeys table) r1
  = ["100"; "ahu.temp"; "Supply air"; "21"; "degC"; "good"; "12345"; ""].
Proof. reflexivity. Qed.

Example sample_export_reads_back :
  CsvLine.read_csv (ExportRoute.csvContent table)
  = Some [["time"; "haystack_name"; "display_name"; "value"; "units"; "quality";
           "device_id"; "timezone"];
          ["100"; "ahu.temp"; "Supply air"; "21"; "degC"; "good"; "12345"; ""];
          ["150"; "vav.flow"; "Supply air"; "7"; "degC"; "good"; ""; ""];
          ["200"; "ahu.temp"; "Supply air"; "22"; "degC"; "good"; "12345"; "UTC"]].
Proof. reflexivity. Qed.

(** The reading [r6] has no attribute at all; its cell in the column
    [toString] holds the text of the function that every object
    inherits. *)
Example inherited_member_in_cell :
  ExportRoute.csvContent [r5; r6]
  = Js.join (String Csv.newline "")
      ["time,haystack_name,display_name,value,units,quality,toString";
       "400,ahu.temp,Supply air,21,degC,good,x";
       "500,ahu.temp,Supply air,22,degC,good,function toString() { [native code] }"] ∧
  CsvLine.read_csv (ExportRoute.csvContent [r5; r6])
  = Some [["time"; "haystack_name"; "display_name"; "value"; "units"; "quality";
           "toString"];
          ["400"; "ahu.temp"; "Supply air"; "21"; "degC"; "good"; "x"];
          ["500"; "ahu.temp"; "Supply air"; "22"; "degC"; "good";
           "function toString() { [native code] }"]].
Proof. split; reflexivity. Qed.

(** The key of [r7]'s attribute holds a comma: the header line reads back
    with eight columns, the data line with seven. *)
Example header_with_comma_shifts :
  ExportRoute.headers [r7]
  = ["time"; "haystack_name"; "display_name"; "value"; "units"; "quality"; "a,b"] ∧
  CsvLine.read_csv (ExportRoute.csvContent [r7])
  = Some [["time"; "haystack_name"; "display_name"; "value"; "units"; "quality";
           "a"; "b"];
          ["600"; "ahu.temp"; "Supply air"; "23"; "degC"; "good"; "1"]].
Proof. split; reflexivity. Qed.

Example sample_selection :
  MonitoringRoute.dataSql_rows 0 (Store.Between 0 1000) None table = [r2; r3].
Proof. reflexivity. Qed.

Example sample_count :
  MonitoringRoute.countSql 0 (Store.Between 0 1000) None table = 2.
Proof. reflexivity. Qed.

Example sample_pages : MonitoringRoute.Math_ceil_div 101 (Some 50) = MonitoringRoute.Int 3.
Proof. reflexivity. Qed.

End OnSamples.

Section Witnesses.
Import Samples.

Lemma unknown_quality_kept_then_refused_witness :
  (Translator.decode (Wire:=wire) "stale" = Some msg_stale ∧
   Translator.translate (H0:=wire) "bacnet/ahu" "stale" 5 = inr stale_values) ∧
  (∀ token, msg_stale !! "quality" = Some (str token) →
     Store.v_quality stale_values = Some token ∧
     (token ∉ ["good"; "uncertain"; "bad"] →
        Store.insert stale_values [r1] = Store.Rejected Store.check_quality ∧
        Translator.ingest (H0:=wire) "bacnet/ahu" "stale" 5 [r1] = ([r1], false)) ∧
     (token ∈ ["good"; "uncertain"; "bad"] →
        ∃ r, Store.insert stale_values [r1] = Store.Inserted ([r1] ++ [r])%list ∧
             Store.quality r = Some token ∧
             Translator.ingest (H0:=wire) "bacnet/ahu" "stale" 5 [r1]
             = (([r1] ++ [r])%list, true))) ∧
  (msg_stale !! "quality" = None →
     Store.v_quality stale_values = None ∧
     ∃ r, Store.insert stale_values [r1] = Store.Inserted ([r1] ++ [r])%list ∧
          Store.quality r = None ∧
          Translator.ingest (H0:=wire) "bacnet/ahu" "stale" 5 [r1]
          = (([r1] ++ [r])%list, true)).
Proof.
  split.
  - split; reflexivity.
  - apply (unknown_quality_kept_then_refused (H0:=wire)
             "bacnet/ahu" "stale" 5 msg_stale stale_values [r1]).
    + reflexivity.
    + reflexivity.
Defined.

(** The message "stamped" carries no quality: its reading is stored,
    with no quality. *)
Example absent_quality_is_stored :
  msg_stamped !! "quality" = None ∧
  Translator.ingest (H0:=wire) "bacnet/ahu" "stamped" 5 [r1]
  = ([r1; @Store.Build_Row host 1700 (Some "ahu.temp") None (Some 23) None None
            (Some (list_to_map [("device_id", num 12345)]))], true).
Proof. split; reflexivity. Qed.

(** C1, as stated, fails: the message "stale" carries a quality outside
    the three tokens; the translator keeps the token, the insert is
    refused by the check, and the table holds no row for the message. *)
Lemma unknown_quality_is_not_stored :
  Translator.translate (H0:=wire) "bacnet/ahu" "stale" 5 = inr stale_values ∧
  Store.v_quality stale_values = Some "stale" ∧
  ("stale" ∉ ["good"; "uncertain"; "bad"]) ∧
  Store.insert stale_values [] = Store.Rejected Store.check_quality ∧
  Translator.ingest (H0:=wire) "bacnet/ahu" "stale" 5 [] = ([], false).
Proof.
  split; [reflexivity|].
  split; [reflexivity|].
  split; [by_computation|].
  split; reflexivity.
Qed.

Lemma duplicates_are_kept_witness :
  (Store.quality_check (Store.quality r1) = true ∧
   Store.time r1 = Store.time r1 ∧
   Store.haystack_name r1 = Store.haystack_name r1) ∧
  ∃ t1 t2,
    Store.insert (Store.values_of r1) [r3] = Store.Inserted t1 ∧
    Store.insert (Store.values_of r1) t1 = Store.Inserted t2 ∧
    t2 = ([r3] ++ [r1; r1])%list ∧
    length t2 = S (S (length [r3])) ∧
    t2 !! length [r3] = Some r1 ∧
    t2 !! S (length [r3]) = Some r1.
Proof.
  split.
  - split; [reflexivity | split; reflexivity].
  - apply (duplicates_are_kept [r3] r1 r1); reflexivity.
Defined.

Lemma fixed_only_payload_has_empty_bag_witness :
  (Translator.decode (Wire:=wire) "fixed-only" = Some msg_fixed_only ∧
   Translator.translate (H0:=wire) "bacnet/ahu" "fixed-only" 5 = inr fixed_only_values ∧
   Store.insert fixed_only_values [r1] = Store.Inserted [r1; fixed_only_row]) ∧
  Store.v_metadata fixed_only_values = Store.Given (Some ∅) ∧
  (∃ r, [r1; fixed_only_row] = ([r1] ++ [r])%list ∧ Store.metadata r = Some ∅) ∧
  Store.metadata_or_default (H:=host) Store.Omitted = Some ∅.
Proof.
  split.
  - split; [reflexivity | split; reflexivity].
  - apply (fixed_only_payload_has_empty_bag (H0:=wire)
             "bacnet/ahu" "fixed-only" 5 msg_fixed_only fixed_only_values
             [r1] [r1; fixed_only_row]).
    + reflexivity.
    + by_computation.
    + reflexivity.
    + reflexivity.
Defined.

Lemma latest_per_point_selects_written_row_witness :
  (Store.insert (Store.values_of r2) [r1; r3] = Store.Inserted table ∧
   Store.in_window 0 (Store.Between 0 1000) r2 && Store.haystack_filter None r2 = true ∧
   (∀ r', r' ∈ Store.where_ 0 (Store.Between 0 1000) None table →
          Store.haystack_name r' = Store.haystack_name r2 →
          Store.time r' < Store.time r2 ∨ r' = r2)) ∧
  r2 ∈ MonitoringRoute.dataSql_rows 0 (Store.Between 0 1000) None table ∧
  (∀ limit, 0 < limit →
     ∃ page p, 1 ≤ page ∧
       Store.limit_offset (Some limit) (Some ((page - 1) * limit))
         (MonitoringRoute.dataSql_rows 0 (Store.Between 0 1000) None table) = Some p ∧
       r2 ∈ p) ∧
  (∀ x, x ∈ MonitoringRoute.dataSql_rows 0 (Store.Between 0 1000) None table →
        Store.haystack_name x = Store.haystack_name r2 → x = r2) ∧
  (∀ c, c ∈ ["time"; "haystack_name"; "dis"; "value"; "units"; "quality"] →
        c ∈ MonitoringRoute.dataSql_select_list ∧ is_Some (Store.column (H:=host) c)) ∧
  "metadata" ∉ MonitoringRoute.dataSql_select_list.
Proof.
  assert (∀ r', r' ∈ Store.where_ 0 (Store.Between 0 1000) None table →
                Store.haystack_name r' = Store.haystack_name r2 →
                Store.time r' < Store.time r2 ∨ r' = r2) as Hlatest.
  { intros r' Hr'.
    change (Store.where_ 0 (Store.Between 0 1000) None table) with [r1; r3; r2] in Hr'.
    apply elem_of_cons in Hr' as [->|Hr']; [intros _; left; reflexivity|].
    apply elem_of_cons in Hr' as [->|Hr']; [intros Hname; discriminate Hname|].
    apply elem_of_cons in Hr' as [->|Hr']; [intros _; right; reflexivity|].
    by apply elem_of_nil in Hr'. }
  split.
  - split; [reflexivity | split; [reflexivity | exact Hlatest]].
  - apply (latest_per_point_selects_written_row 0 (Store.Between 0 1000) None
             [r1; r3] table r2).
    + reflexivity.
    + reflexivity.
    + exact Hlatest.
Defined.

(** C2, as stated, fails: [r2] is written and is the most recent row of
    its point, with two attributes in its bag; the listing's answer to the
    request for the window holds no reading at all, and the select list
    of its query has no place for the bag. *)
Lemma latest_per_point_returns_no_attributes :
  Store.insert (Store.values_of r2) [r1; r3] = Store.Inserted table ∧
  Store.metadata r2
  = Some (list_to_map [("device_id", num 12345); ("timezone", str "UTC")]) ∧
  MonitoringRoute.GET names 0 table between_0_1000 = MonitoringRoute.Error500 ∧
  MonitoringRoute.readings_of (MonitoringRoute.GET names 0 table between_0_1000) = [] ∧
  "metadata" ∉ MonitoringRoute.dataSql_select_list.
Proof.
  split; [reflexivity|].
  split; [reflexivity|].
  split; [apply GET_refused|].
  split; [by rewrite GET_refused|].
  by_computation.
Qed.

Example sample_preview_and_delete :
  DeleteRoute.GET (table ++ [r4])%list preview_points = DeleteRoute.Count 3 ∧
  DeleteRoute.DELETE (table ++ [r4])%list delete_points = ([r4], DeleteRoute.Success).
Proof. split; reflexivity. Qed.

Lemma preview_count_matches_delete_witness :
  (DeleteRoute.type delete_points = preview_points !! "type" ∧
   DeleteRoute.haystack_names delete_points
   = (λ s, Js.filter_Boolean (Js.split "," s)) <$> preview_points !! "haystack_names" ∧
   DeleteRoute.from delete_points = preview_points !! "from" ∧
   DeleteRoute.to delete_points = preview_points !! "to") ∧
  match DeleteRoute.GET (table ++ [r4])%list preview_points,
        DeleteRoute.DELETE (table ++ [r4])%list delete_points with
  | DeleteRoute.Count count, (table', DeleteRoute.Success) =>
      count = Z.of_nat (length (table ++ [r4])%list) - Z.of_nat (length table') ∧
      match DeleteRoute.choose (DeleteRoute.type delete_points)
              (DeleteRoute.haystack_names delete_points)
              (DeleteRoute.from delete_points) (DeleteRoute.to delete_points) with
      | DeleteRoute.Points names =>
          table' = filter (λ r, Store.name_in names r = false) (table ++ [r4])%list ∧
          count = Z.of_nat (length (filter (λ r, Store.name_in names r = true)
                                      (table ++ [r4])%list))
      | DeleteRoute.Time_range from to =>
          ∃ f t, @Date_parse host from = Some f ∧ @Date_parse host to = Some t ∧
            table' = filter (λ r, ¬ (f ≤ Store.time r ≤ t)) (table ++ [r4])%list ∧
            count = Z.of_nat (length (filter (λ r, f ≤ Store.time r ≤ t)
                                        (table ++ [r4])%list))
      | DeleteRoute.All => table' = [] ∧ count = Z.of_nat (length (table ++ [r4])%list)
      | DeleteRoute.Invalid => False
      end
  | DeleteRoute.PreviewInvalid400, (table', DeleteRoute.DeleteInvalid400) =>
      table' = (table ++ [r4])%list
  | DeleteRoute.PreviewError500, (table', DeleteRoute.DeleteError500) =>
      table' = (table ++ [r4])%list
  | _, _ => False
  end ∧
  (∀ names,
     DeleteRoute.type delete_points = Some "points" →
     DeleteRoute.haystack_names delete_points = Some names → names ≠ [] →
     DeleteRoute.GET (table ++ [r4])%list preview_points
     = DeleteRoute.Count
         (Z.of_nat (length (filter (λ r, Store.haystack_name r ∈ Some <$> names)
                              (table ++ [r4])%list))) ∧
     DeleteRoute.DELETE (table ++ [r4])%list delete_points
     = (filter (λ r, Store.haystack_name r ∉ Some <$> names) (table ++ [r4])%list,
        DeleteRoute.Success)) ∧
  (∀ from_ to_ f t,
     DeleteRoute.type delete_points = Some "time_range" →
     DeleteRoute.from delete_points = Some from_ → from_ ≠ "" →
     @Date_parse host from_ = Some f →
     DeleteRoute.to delete_points = Some to_ → to_ ≠ "" →
     @Date_parse host to_ = Some t →
     DeleteRoute.GET (table ++ [r4])%list preview_points
     = DeleteRoute.Count
         (Z.of_nat (length (filter (λ r, f ≤ Store.time r ≤ t) (table ++ [r4])%list))) ∧
     DeleteRoute.DELETE (table ++ [r4])%list delete_points
     = (filter (λ r, ¬ (f ≤ Store.time r ≤ t)) (table ++ [r4])%list,
        DeleteRoute.Success)).
Proof.
  split.
  - repeat split; reflexivity.
  - apply (preview_count_matches_delete (H:=host) (table ++ [r4])%list
             preview_points delete_points); reflexivity.
Defined.

(** A preview and a deletion for a time range: the rows at the times 100
    and 150 are counted and removed, the rows at 200 and 300 stay. *)
Example sample_preview_and_delete_range :
  DeleteRoute.GET (table ++ [r4])%list preview_range = DeleteRoute.Count 2 ∧
  DeleteRoute.DELETE (table ++ [r4])%list delete_range
  = ([r2; r4], DeleteRoute.Success).
Proof. split; reflexivity. Qed.


(** The table [many] has 100 001 rows, all in the window of the request;
    the export takes 100 000 of them, from the row of the time 100 000
    down to the row of the time 1, and leaves out the oldest, the row of
    the time 0. *)
Example export_leaves_out_the_oldest :
  Z.of_nat (length many) = 100001 ∧
  Z.of_nat (length (Store.where_ 0 (Store.Between 0 200000) None many)) = 100001 ∧
  Z.of_nat (length most_recent) = 100000 ∧
  Store.time <$> head many = Some 0 ∧
  Store.time <$> head most_recent = Some 100000 ∧
  Store.time <$> last most_recent = Some 1 ∧
  forallb (λ r, bool_decide (1 ≤ Store.time r)) most_recent = true.
Proof. repeat apply conj; vm_compute; reflexivity. Qed.

End Witnesses.

(** ** The points listing *)

Section PointsFacts.
Context `{Host}.
Import Store PointsRoute.

Lemma foldr_min_spec (t : Z) (ts : list Z) :
  foldr Z.min t ts ∈ t :: ts ∧ ∀ x, x ∈ t :: ts → foldr Z.min t ts ≤ x.
Proof.
  induction ts as [|a ts [IHin IHle]]; simpl.
  - split; [by left|]. intros x ->%list_elem_of_singleton. lia.
  - split.
    + destruct (Z.min_spec a (foldr Z.min t ts)) as [[_ ->]|[_ ->]].
      * right. by left.
      * apply elem_of_cons in IHin as [->|?]; [by left | by right; right].
    + intros x [->|[->|Hx]%elem_of_cons]%elem_of_cons.
      * specialize (IHle t ltac:(by left)). lia.
      * lia.
      * specialize (IHle x ltac:(by right)). lia.
Qed.

Lemma foldr_max_spec (t : Z) (ts : list Z) :
  foldr Z.max t ts ∈ t :: ts ∧ ∀ x, x ∈ t :: ts → x ≤ foldr Z.max t ts.
Proof.
  induction ts as [|a ts [IHin IHle]]; simpl.
  - split; [by left|]. intros x ->%list_elem_of_singleton. lia.
  - split.
    + destruct (Z.max_spec a (foldr Z.max t ts)) as [[_ ->]|[_ ->]].
      * apply elem_of_cons in IHin as [->|?]; [by left | by right; right].
      * right. by left.
    + intros x [->|[->|Hx]%elem_of_cons]%elem_of_cons.
      * specialize (IHle t ltac:(by left)). lia.
      * lia.
      * specialize (IHle x ltac:(by right)). lia.
Qed.

Lemma elem_of_times_of (n : string) (table : Table) (t : Z) :
  t ∈ times_of n table ↔ ∃ r, r ∈ table ∧ haystack_name r = Some n ∧ time r = t.
Proof.
  unfold times_of. rewrite list_elem_of_fmap. split.
  - intros (r & -> & [Hn Hr]%list_elem_of_filter). by exists r.
  - intros (r & Hr & Hn & <-). exists r. split; [done|].
    by apply list_elem_of_filter.
Qed.

Lemma elem_of_group_names (table : Table) (n : string) :
  n ∈ group_names table ↔ ∃ r, r ∈ table ∧ haystack_name r = Some n.
Proof.
  unfold group_names. rewrite merge_sort_Permutation, elem_of_remove_dups.
  apply list_elem_of_omap.
Qed.

Lemma group_names_sorted (table : Table) :
  StronglySorted String.le (group_names table).
Proof. apply StronglySorted_merge_sort; apply _. Qed.

Lemma group_names_NoDup (table : Table) : NoDup (group_names table).
Proof.
  unfold group_names. rewrite merge_sort_Permutation. apply NoDup_remove_dups.
Qed.

Lemma group_Some (n : string) (table : Table) (p : Point) :
  group n table = Some p →
  name p = n ∧
  count p = Z.of_nat (length (filter (λ r, haystack_name r = Some n) table)) ∧
  1 ≤ count p ∧
  firstTime p ∈ times_of n table ∧ lastTime p ∈ times_of n table ∧
  ∀ t, t ∈ times_of n table → firstTime p ≤ t ≤ lastTime p.
Proof.
  unfold group. destruct (times_of n table) as [|t ts] eqn:E; [done|].
  intros [= <-]. simpl.
  destruct (foldr_min_spec t ts) as [? Hmin], (foldr_max_spec t ts) as [? Hmax].
  split; [done|]. split.
  { unfold times_of in E. rewrite <- (length_fmap time), E. done. }
  split; [lia|]. split; [done|]. split; [done|].
  intros x Hx. split; [by apply Hmin | by apply Hmax].
Qed.

Lemma group_listed (n : string) (table : Table) :
  n ∈ group_names table → is_Some (group n table).
Proof.
  intros (r & Hr & Hn)%elem_of_group_names. unfold group.
  destruct (times_of n table) eqn:E; [|by eexists].
  assert (time r ∈ times_of n table) as Hin by (apply elem_of_times_of; eauto).
  rewrite E in Hin. by apply elem_of_nil in Hin.
Qed.

Lemma GET_names (table : Table) : name <$> GET table = group_names table.
Proof.
  unfold GET.
  pose proof (group_listed) as Hl.
  assert (∀ n, n ∈ group_names table → is_Some (group n table)) as Hall
    by (intros; by apply Hl).
  induction (group_names table) as [|n ns IH]; [done|]. simpl.
  destruct (Hall n ltac:(by left)) as [p Hp]. rewrite Hp. simpl.
  apply group_Some in Hp as (-> & _). f_equal.
  apply IH. intros m Hm. apply Hall. by right.
Qed.

Lemma elem_of_GET (table : Table) (p : Point) :
  p ∈ GET table ↔ name p ∈ group_names table ∧ group (name p) table = Some p.
Proof.
  unfold GET. rewrite list_elem_of_omap. split.
  - intros (n & Hn & Hp). pose proof (group_Some _ _ _ Hp) as (<- & _). done.
  - intros [Hn Hp]. by exists (name p).
Qed.

(** X1. The points listing names every point that has a row in the table,
    each once, in ascending order of the name; rows without a name give
    no entry. *)
Theorem points_listing_names (table : Table) :
  StronglySorted String.le (name <$> GET table) ∧
  NoDup (name <$> GET table) ∧
  ∀ n, n ∈ name <$> GET table ↔ ∃ r, r ∈ table ∧ haystack_name r = Some n.
Proof.
  rewrite GET_names. split; [apply group_names_sorted|].
  split; [apply group_names_NoDup | apply elem_of_group_names].
Qed.

(** X2. Every entry of the points listing counts the rows of its point,
    at least one, and its first and last time are the times of rows of
    the point between which all rows of the point lie. *)
Theorem points_listing_stats (table : Table) (p : Point) :
  p ∈ GET table →
  count p = Z.of_nat (length (filter (λ r, haystack_name r = Some (name p)) table)) ∧
  1 ≤ count p ∧
  (∃ r, r ∈ table ∧ haystack_name r = Some (name p) ∧ time r = firstTime p) ∧
  (∃ r, r ∈ table ∧ haystack_name r = Some (name p) ∧ time r = lastTime p) ∧
  (∀ r, r ∈ table → haystack_name r = Some (name p) →
        firstTime p ≤ time r ≤ lastTime p) ∧
  firstTime p ≤ lastTime p.
Proof.
  intros [_ Hp]%elem_of_GET.
  apply group_Some in Hp as (_ & Hc & H1 & Hf & Hl & Hb).
  split; [done|]. split; [done|].
  split; [by apply elem_of_times_of|]. split; [by apply elem_of_times_of|].
  split.
  - intros r Hr Hn. apply Hb, elem_of_times_of. eauto.
  - by apply Hb.
Qed.

End PointsFacts.

(** ** The points listing beside the delete route *)

Section PointsAndDelete.
Context `{Host}.
Import Store PointsRoute.

Lemma filter_ext_in {A} (P Q : A → Prop)
    `{!∀ x, Decision (P x), !∀ x, Decision (Q x)} (l : list A) :
  (∀ x, x ∈ l → P x ↔ Q x) → filter P l = filter Q l.
Proof.
  induction l as [|a l IH]; intros Hiff; [done|].
  rewrite !filter_cons.
  rewrite IH by (intros x Hx; apply Hiff; by right).
  destruct (decide (P a)) as [HP|HP].
  - rewrite decide_True; [done|]. by apply (Hiff a); [left|].
  - rewrite decide_False; [done|]. intros HQ. apply HP. by apply (Hiff a); [left|].
Qed.

Lemma StronglySorted_filter {A} (R : relation A) (P : A → Prop)
    `{!∀ x, Decision (P x)} (l : list A) :
  StronglySorted R l → StronglySorted R (filter P l).
Proof.
  induction 1 as [|a l Hs IH Hall]; [constructor|].
  rewrite filter_cons. case_decide; [|done].
  constructor; [done|]. rewrite Forall_forall in *.
  intros x [_ Hx]%list_elem_of_filter. by apply Hall.
Qed.

Lemma name_in_cons (n : string) (ns : list string) (r : Row) :
  name_in (n :: ns) r = true ↔ haystack_name r = Some n ∨ name_in ns r = true.
Proof.
  unfold name_in. destruct (haystack_name r) as [m|].
  - rewrite !bool_decide_eq_true, elem_of_cons. split.
    + intros [->|?]; auto.
    + intros [[= ->]|?]; auto.
  - split; [done | intros [?|?]; done].
Qed.

Lemma name_in_spec (ns : list string) (r : Row) :
  name_in ns r = true ↔ ∃ n, haystack_name r = Some n ∧ n ∈ ns.
Proof.
  unfold name_in. destruct (haystack_name r) as [m|].
  - rewrite bool_decide_eq_true. split.
    + intros ?. by exists m.
    + intros (n & [= ->] & ?). done.
  - split; [done | intros (n & ? & _); done].
Qed.

(** The rows of the names of a duplicate-free list, counted name by
    name. *)
Lemma count_by_name (ns : list string) (table : list Row) :
  NoDup ns →
  foldr Z.add 0
    ((λ n, Z.of_nat (length (filter (λ r, haystack_name r = Some n) table))) <$> ns)
  = Z.of_nat (length (filter (λ r, name_in ns r = true) table)).
Proof.
  induction 1 as [|n ns Hn Hnd IH]; [rewrite fmap_nil|rewrite fmap_cons]; cbn [foldr].
  - induction table as [|r table IHt]; [done|].
    rewrite filter_cons, decide_False; [done|].
    rewrite name_in_spec. intros (? & _ & []%elem_of_nil).
  - rewrite IH. clear IH.
    induction table as [|r table IHt]; [done|].
    rewrite !filter_cons.
    destruct (decide (haystack_name r = Some n)) as [E|N].
    + rewrite (decide_True (P:=name_in (n :: ns) r = true))
        by (apply name_in_cons; auto).
      rewrite (decide_False (P:=name_in ns r = true)).
      * simpl. lia.
      * rewrite name_in_spec. intros (m & Em & Hm). congruence.
    + destruct (decide (name_in ns r = true)) as [I|I].
      * rewrite decide_True by (apply name_in_cons; auto). simpl. lia.
      * rewrite decide_False; [lia|]. rewrite name_in_cons. tauto.
Qed.

Lemma listed_counts (names : list string) (table : Table) :
  foldr Z.add 0 (count <$> filter (λ p, name p ∈ names) (GET table))
  = Z.of_nat (length (filter (λ r, name_in names r = true) table)).
Proof.
  unfold Table in *.
  transitivity (foldr Z.add 0
    ((λ n, Z.of_nat (length (filter (λ r, haystack_name r = Some n) table)))
       <$> filter (λ n, n ∈ names) (group_names table))).
  { rewrite <- GET_names.
    assert (∀ p, p ∈ GET table →
      count p = Z.of_nat (length (filter (λ r, haystack_name r = Some (name p)) table)))
      as Hc by (intros p [_ Hp]%elem_of_GET; by apply group_Some in Hp as (_ & ? & _)).
    induction (GET table) as [|p ps IH]; [done|].
    rewrite fmap_cons, !filter_cons.
    specialize (IH (λ q Hq, Hc q ltac:(by right))).
    case_decide; [|done]. rewrite !fmap_cons. cbn [foldr].
    rewrite IH, (Hc p) by (by left). done. }
  rewrite count_by_name by apply NoDup_filter, group_names_NoDup.
  f_equal. f_equal. apply filter_ext_in. intros r Hr.
  rewrite !name_in_spec. split.
  - intros (n & En & [Hn _]%list_elem_of_filter). eauto.
  - intros (n & En & Hn). exists n. split; [done|].
    apply list_elem_of_filter. split; [done|].
    apply elem_of_group_names. eauto.
Qed.

(** X3. The count the delete preview answers for a list of point names
    is the sum of the counts the points listing shows for these points;
    a name the listing does not show adds nothing. *)
Theorem preview_count_is_sum_of_listed_counts (table : Table)
    (searchParams : gmap string string) (names : list string) :
  searchParams !! "type" = Some "points" →
  (λ s, Js.filter_Boolean (Js.split "," s)) <$> searchParams !! "haystack_names"
  = Some names →
  names ≠ [] →
  DeleteRoute.GET table searchParams
  = DeleteRoute.Count
      (foldr Z.add 0 (count <$> filter (λ p, name p ∈ names) (GET table))).
Proof.
  intros Ht Hn Hne. unfold DeleteRoute.GET. rewrite Ht, Hn.
  unfold DeleteRoute.choose. rewrite decide_True by done.
  destruct names as [|n ns]; [done|]. simpl.
  by rewrite listed_counts.
Qed.

(** X4. The counts of the points listing add up to the number of rows
    that have a name: a row without a name is counted by no entry. *)
Theorem points_listing_counts_named_rows (table : Table) :
  foldr Z.add 0 (count <$> GET table)
  = Z.of_nat (length (filter (λ r, is_Some (haystack_name r)) table)).
Proof.
  unfold Table in *.
  assert (filter (λ p, name p ∈ group_names table) (GET table) = GET table) as Hall.
  { assert (∀ p, p ∈ GET table → name p ∈ group_names table) as Hin
      by (by intros p [? _]%elem_of_GET).
    induction (GET table) as [|p ps IH]; [done|].
    rewrite filter_cons, decide_True by (apply Hin; by left).
    rewrite IH; [done|]. intros q Hq. apply Hin. by right. }
  rewrite <- Hall, listed_counts. f_equal. f_equal.
  apply filter_ext_in. intros r Hr. rewrite name_in_spec. split.
  - intros (n & -> & _). by eexists.
  - intros [n Hn]. exists n. split; [done|]. apply elem_of_group_names. eauto.
Qed.

(** X5. Deleting a list of points takes exactly their entries out of the
    points listing; the entries of all other points, with their counts and
    times, stay as they were. *)
Theorem delete_points_then_listing (table : Table)
    (body : DeleteRoute.DeleteRequest) (names : list string) :
  DeleteRoute.type body = Some "points" →
  DeleteRoute.haystack_names body = Some names →
  names ≠ [] →
  (DeleteRoute.DELETE table body).2 = DeleteRoute.Success ∧
  GET (DeleteRoute.DELETE table body).1
  = filter (λ p, name p ∉ names) (GET table).
Proof.
  intros Ht Hn Hne. unfold DeleteRoute.DELETE. rewrite Ht, Hn.
  unfold DeleteRoute.choose. rewrite decide_True by done.
  destruct names as [|n0 ns0]; [done|]. simpl. split; [done|].
  set (names := n0 :: ns0). set (table' := delete_where (name_in names) table).
  assert (∀ r, r ∈ table' ↔ r ∈ table ∧ name_in names r = false) as Hin'.
  { intros r. unfold table', delete_where. rewrite list_elem_of_filter. tauto. }
  assert (∀ n, n ∉ names → times_of n table' = times_of n table) as Htimes.
  { intros n Hnot. unfold times_of, table', delete_where, Table in *. f_equal.
    rewrite list_filter_filter. apply list_filter_iff. intros r. split; [tauto|].
    intros E. split; [done|]. unfold name_in. rewrite E.
    by apply bool_decide_eq_false. }
  assert (group_names table' = filter (λ n, n ∉ names) (group_names table)) as Hnames.
  { apply (StronglySorted_unique String.le).
    - apply group_names_sorted.
    - apply StronglySorted_filter, group_names_sorted.
    - apply NoDup_Permutation.
      + apply group_names_NoDup.
      + apply NoDup_filter, group_names_NoDup.
      + intros n. rewrite list_elem_of_filter, !elem_of_group_names. split.
        * intros (r & [Hr Hd]%Hin' & En). split; [|eauto].
          intros Hmem. unfold name_in in Hd. rewrite En in Hd.
          by apply bool_decide_eq_false in Hd.
        * intros [Hnot (r & Hr & En)]. exists r. split; [|done].
          apply Hin'. split; [done|]. unfold name_in. rewrite En.
          by apply bool_decide_eq_false. }
  assert (∀ n, n ∉ names → group n table' = group n table) as Hgroup.
  { intros n Hnot. unfold group. by rewrite (Htimes n Hnot). }
  unfold GET. rewrite Hnames. clear Hnames.
  induction (group_names table) as [|n ns IH]; [done|].
  rewrite filter_cons. destruct (decide (n ∉ names)) as [Hnot|Hmem].
  - cbn [omap list_omap]. rewrite (Hgroup n Hnot).
    destruct (group n table) as [p|] eqn:Ep; [|exact IH].
    pose proof (group_Some _ _ _ Ep) as (Epn & _).
    rewrite filter_cons, decide_True by (by rewrite Epn). by rewrite IH.
  - cbn [omap list_omap].
    destruct (group n table) as [p|] eqn:Ep; [|exact IH].
    pose proof (group_Some _ _ _ Ep) as (Epn & _).
    rewrite filter_cons, decide_False by (by rewrite Epn). exact IH.
Qed.

End PointsAndDelete.

(** ** More on the delete route *)

Section DeleteMore.
Context `{Host}.
Import Store DeleteRoute.

Lemma delete_where_twice (cond : Row → bool) (table : Table) :
  delete_where cond (delete_where cond table) = delete_where cond table.
Proof.
  unfold delete_where, Table in *. rewrite list_filter_filter.
  apply list_filter_iff. tauto.
Qed.

Lemma none_selected_after_delete (cond : Row → bool) (table : Table) :
  filter (λ r, cond r = true) (delete_where cond table) = [].
Proof.
  unfold delete_where, Table in *. rewrite list_filter_filter.
  induction table as [|r table IH]; [done|].
  rewrite filter_cons, decide_False; [done|].
  intros [? ?]. congruence.
Qed.

Lemma DELETE_sublist (table : Table) (body : DeleteRequest) :
  sublist (DELETE table body).1 table.
Proof.
  unfold DELETE. destruct (choose _ _ _ _) as [names|f t| |]; simpl; try done.
  - apply sublist_filter.
  - destruct (Date_parse f); simpl; [|done].
    destruct (Date_parse t); simpl; [apply sublist_filter | done].
  - apply sublist_nil_l.
Qed.

(** X6. A deletion that succeeded has nothing left to do: the preview
    for the same request on the table it leaves answers with count 0, and
    running the same deletion again succeeds and removes no row. *)
Theorem delete_leaves_nothing_to_delete (table : Table)
    (searchParams : gmap string string) (body : DeleteRequest) :
  type body = searchParams !! "type" →
  haystack_names body
  = (λ s, Js.filter_Boolean (Js.split "," s)) <$> searchParams !! "haystack_names" →
  from body = searchParams !! "from" →
  to body = searchParams !! "to" →
  (DELETE table body).2 = Success →
  GET (DELETE table body).1 searchParams = Count 0 ∧
  DELETE (DELETE table body).1 body = ((DELETE table body).1, Success).
Proof.
  intros Etype Enames Efrom Eto. unfold GET, DELETE.
  rewrite <- Etype, <- Enames, <- Efrom, <- Eto.
  destruct (choose _ _ _ _) as [names|from to| |]; simpl.
  - intros _. by rewrite none_selected_after_delete, delete_where_twice.
  - destruct (Date_parse from) as [f|]; simpl; [|done].
    destruct (Date_parse to) as [t|]; simpl; [|done].
    intros _. by rewrite none_selected_after_delete, delete_where_twice.
  - done.
  - done.
Qed.

(** X7. Whatever rows the bridge inserts and whatever the delete route
    removes, starting from the empty table, every row of the table has a
    quality that is absent or one of good, uncertain, bad. *)
Theorem quality_of_every_row (table : Table) (r : Row) :
  History.reachable table → r ∈ table →
  quality r = None ∨ quality r = Some "good" ∨
  quality r = Some "uncertain" ∨ quality r = Some "bad".
Proof.
  intros Hreach. revert r.
  induction Hreach as [|v t t' _ IH Hins|body t _ IH]; intros r Hr.
  - by apply elem_of_nil in Hr.
  - unfold insert in Hins. destruct (v_time v) as [tm|]; [|done].
    destruct (quality_check (v_quality v)) eqn:Hq; [|done].
    injection Hins as <-.
    apply elem_of_app in Hr as [Hr| ->%list_elem_of_singleton]; [by apply IH|].
    simpl. by apply quality_check_spec.
  - apply IH. eapply elem_of_sublist; [exact Hr | apply DELETE_sublist].
Qed.

End DeleteMore.

(** ** More on the export *)

Section ExportMore.
Context `{Host}.
Import Store ExportRoute.

Lemma flatten_lookup (reading : Row) (k : string) :
  flatten reading !! k
  = match metadata reading ≫= (.!! k) with
    | Some v => Some (Attribute v)
    | None =>
        if decide (k = "time") then Some (Fixed (Timestamptz (time reading)))
        else if decide (k = "haystack_name") then Some (Fixed (Text (haystack_name reading)))
        else if decide (k = "dis") then Some (Fixed (Text (dis reading)))
        else if decide (k = "value") then Some (Fixed (Double (value reading)))
        else if decide (k = "units") then Some (Fixed (Text (units reading)))
        else if decide (k = "quality") then Some (Fixed (Text (quality reading)))
        else None
    end.
Proof.
  assert (default ∅ (metadata reading) !! k = metadata reading ≫= (.!! k)) as Hbag.
  { destruct (metadata reading); [done | apply lookup_empty]. }
  unfold flatten. destruct (metadata reading ≫= (.!! k)) as [v|] eqn:E.
  { apply lookup_union_Some_l. by rewrite lookup_fmap, Hbag. }
  rewrite lookup_union_r by (by rewrite lookup_fmap, Hbag).
  repeat case_decide; subst; try reflexivity.
  apply not_elem_of_list_to_map_1. simpl.
  rewrite !not_elem_of_cons. repeat split; try done. apply not_elem_of_nil.
Qed.

(** X8. In the JSON export every attribute of a reading's bag is a field
    of the flattened record, with its value, also under the name of a
    fixed column, which it then replaces; each of the six fixed fields
    that no attribute replaces holds the column's value, and the record
    has no other field. *)
Theorem json_export_flattens (reading : Row) :
  (∀ m k v, metadata reading = Some m → m !! k = Some v →
            flatten reading !! k = Some (Attribute v)) ∧
  (∀ k, metadata reading ≫= (.!! k) = None →
        flatten reading !! k
        = if decide (k = "time") then Some (Fixed (Timestamptz (time reading)))
          else if decide (k = "haystack_name")
               then Some (Fixed (Text (haystack_name reading)))
          else if decide (k = "dis") then Some (Fixed (Text (dis reading)))
          else if decide (k = "value") then Some (Fixed (Double (value reading)))
          else if decide (k = "units") then Some (Fixed (Text (units reading)))
          else if decide (k = "quality") then Some (Fixed (Text (quality reading)))
          else None).
Proof.
  split.
  - intros m k v Hm Hk. rewrite flatten_lookup, Hm. simpl. by rewrite Hk.
  - intros k Hk. by rewrite flatten_lookup, Hk.
Qed.

Lemma query_readings_spec now (table : Table) (searchParams : gmap string string)
    (readings : list Row) :
  query_readings now table searchParams = Some readings →
  ∃ f,
    Sql.timeFilter "24 hours"
      (Js.or_null (searchParams !! "start")) (Js.or_null (searchParams !! "end"))
      (Js.or_else (searchParams !! "range") "24h") = Some f ∧
    readings
    = take (Z.to_nat LIMIT)
        (order_by_time_desc
           (where_ now f (Js.or_null (searchParams !! "haystack")) table)).
Proof.
  unfold query_readings. destruct (Sql.timeFilter _ _ _ _) as [f|]; [|done].
  simpl. rewrite sql_spec. intros [= <-]. by exists f.
Qed.

(** X9. The export holds rows of the table only, each inside the time
    window of the request and, when a point is asked for, of that point:
    with a point filter no row without a name is exported. *)
Theorem export_only_matching_rows now (table : Table)
    (searchParams : gmap string string) (readings : list Row) (r : Row) :
  query_readings now table searchParams = Some readings →
  r ∈ readings →
  r ∈ table ∧
  (∃ f, Sql.timeFilter "24 hours"
          (Js.or_null (searchParams !! "start")) (Js.or_null (searchParams !! "end"))
          (Js.or_else (searchParams !! "range") "24h") = Some f ∧
        in_window now f r = true) ∧
  (∀ n, Js.or_null (searchParams !! "haystack") = Some n →
        haystack_name r = Some n).
Proof.
  intros (f & Hf & ->)%query_readings_spec Hr.
  assert (r ∈ where_ now f (Js.or_null (searchParams !! "haystack")) table) as Hw.
  { rewrite <- (order_by_time_desc_perm (where_ _ _ _ _)).
    eapply elem_of_sublist; [exact Hr | apply sublist_take]. }
  unfold where_ in Hw. apply list_elem_of_filter in Hw as [Hw Ht].
  apply Is_true_true, andb_true_iff in Hw as [Hwin Hname].
  split; [done|]. split; [by exists f|].
  intros n Hn. rewrite Hn in Hname. simpl in Hname.
  by apply bool_decide_eq_true in Hname.
Qed.

(** X10. When no row matches the request, the CSV export is the header
    line of the six fixed column names alone, with no line break, and
    the JSON export is the empty array. *)
Theorem export_of_nothing now (table : Table) (searchParams : gmap string string)
    (f : time_filter) :
  Sql.timeFilter "24 hours"
    (Js.or_null (searchParams !! "start")) (Js.or_null (searchParams !! "end"))
    (Js.or_else (searchParams !! "range") "24h") = Some f →
  where_ now f (Js.or_null (searchParams !! "haystack")) table = [] →
  GET now table searchParams
  = if decide (Js.or_else (searchParams !! "format") "csv" = "json")
    then Json_body []
    else Csv_body "time,haystack_name,display_name,value,units,quality".
Proof.
  intros Hf Hw. unfold GET.
  assert (query_readings now table searchParams = Some []) as ->.
  { unfold query_readings. rewrite Hf.
    change (Some f ≫= _) with (sql now f (Js.or_null (searchParams !! "haystack")) table).
    rewrite sql_spec, Hw. unfold order_by_time_desc.
    change (merge_sort time_desc []) with (@nil Row). by rewrite take_nil. }
  by case_decide.
Qed.

(** X11. A start without an end, or an end without a start, plays no
    role: the export answers as if the lone bound had not been given,
    with the window of the range parameter. *)
Theorem export_ignores_lone_bound now (table : Table)
    (searchParams : gmap string string) :
  Js.or_null (searchParams !! "start") = None ∨
  Js.or_null (searchParams !! "end") = None →
  GET now table searchParams
  = GET now table (delete "start" (delete "end" searchParams)).
Proof.
  intros Hlone. set (rest := delete "start" (delete "end" searchParams)).
  assert (rest !! "start" = None) as Hs by apply lookup_delete_eq.
  assert (rest !! "end" = None) as He.
  { unfold rest. rewrite lookup_delete_ne by done. apply lookup_delete_eq. }
  assert (∀ k, k ≠ "start" → k ≠ "end" → rest !! k = searchParams !! k) as Hk.
  { intros k ? ?. unfold rest. by rewrite !lookup_delete_ne. }
  unfold GET, query_readings. rewrite Hs, He, !Hk by done. simpl.
  assert (Sql.timeFilter "24 hours" (Js.or_null (searchParams !! "start"))
            (Js.or_null (searchParams !! "end"))
            (Js.or_else (searchParams !! "range") "24h")
          = Sql.timeFilter "24 hours" None None
              (Js.or_else (searchParams !! "range") "24h")) as ->; [|done].
  unfold Sql.timeFilter. destruct Hlone as [-> | ->]; [done|].
  by destruct (Js.or_null (searchParams !! "start")).
Qed.

(** X12. A range parameter that is none of 1h, 24h, 7d, 30d selects the
    default window of 24 hours, unless it names a property that every
    object inherits (constructor, toString, ...): then the query is
    refused and the export answers with the error response. *)
Theorem export_unknown_range now (table : Table)
    (searchParams : gmap string string) (range : string) :
  Js.or_null (searchParams !! "start") = None ∨
  Js.or_null (searchParams !! "end") = None →
  searchParams !! "range" = Some range →
  range ∉ ["1h"; "24h"; "7d"; "30d"] →
  (range ∈ Sql.Object_prototype_keys → GET now table searchParams = Error500) ∧
  (range ∉ Sql.Object_prototype_keys →
     GET now table searchParams
     = GET now table (<["range" := "24h"]> searchParams)).
Proof.
  intros Hlone Hr Hnot.
  apply not_elem_of_cons in Hnot as [N1 Hnot].
  apply not_elem_of_cons in Hnot as [N2 Hnot].
  apply not_elem_of_cons in Hnot as [N3 Hnot].
  apply not_elem_of_cons in Hnot as [N4 _].
  assert (∀ d r, Sql.timeFilter d (Js.or_null (searchParams !! "start"))
            (Js.or_null (searchParams !! "end")) r
          = match Sql.intervals r with
            | Sql.Own i => Since <$> Sql.interval_length i
            | Sql.Inherited => None
            | Sql.Absent => Since <$> Sql.interval_length d
            end) as Htf.
  { intros d r. unfold Sql.timeFilter. destruct Hlone as [-> | ->]; [done|].
    by destruct (Js.or_null (searchParams !! "start")). }
  assert ((<["range" := "24h"]> searchParams) !! "range" = Some "24h") as Hr'
    by apply lookup_insert_eq.
  assert (∀ k, k ≠ "range" →
            (<["range" := "24h"]> searchParams) !! k = searchParams !! k) as Hk
    by (intros k ?; by apply lookup_insert_ne).
  destruct (decide (range = "")) as [->|Hne].
  { split.
    - intros Hin. exfalso. revert Hin. by_computation.
    - intros _. unfold GET, query_readings. by rewrite Hr', Hr, !Hk. }
  assert (Js.or_else (searchParams !! "range") "24h" = range) as Hrange.
  { rewrite Hr. simpl. by rewrite decide_False. }
  split.
  - intros Hin. unfold GET, query_readings. rewrite Hrange, Htf.
    unfold Sql.intervals. rewrite !decide_False by done.
    by rewrite decide_True.
  - intros Hout. unfold GET, query_readings.
    rewrite Hr', !Hk, Hrange, !Htf by done.
    unfold Sql.intervals at 1. rewrite !decide_False by done. done.
Qed.

End ExportMore.

(** ** The lines of the CSV export *)

Section CsvLineFacts.
Context `{Host}.
Import Csv CsvLine.


(** X14. The header line is written without escaping: it reads back as
    the column names when no attribute key holds a comma, a quote, a
    line feed or a carriage return. *)
Theorem csv_header_line_reads_back (readings : list Store.Row) :
  Forall plain (ExportRoute.sortedMetadataKeys readings) →
  read_line (Js.join "," (ExportRoute.headers readings))
  = Some (ExportRoute.headers readings).
Proof.
  intros Hkeys.
  destruct (headers_unescaped readings Hkeys) as [Hid Hheaders].
  rewrite <- Hid at 1. by apply read_line_joined.
Qed.

End CsvLineFacts.

(** ** More on the latest reading per point *)

Section MonitoringMore.
Context `{Host}.
Import Store MonitoringRoute.

(** X15. The rows the listing's query selects: rows of the window, at
    most one for each point, one for every point that has a row in the
    window, and for each point a row of the greatest time. *)
Theorem selection_is_latest_per_point now f name (table : Table) :
  NoDup (haystack_name <$> dataSql_rows now f name table) ∧
  (∀ x, x ∈ dataSql_rows now f name table →
        x ∈ where_ now f name table ∧
        ∀ r, r ∈ where_ now f name table →
             haystack_name r = haystack_name x → time r ≤ time x) ∧
  (∀ r, r ∈ where_ now f name table →
        ∃ x, x ∈ dataSql_rows now f name table ∧
             haystack_name x = haystack_name r).
Proof.
  split; [apply dataSql_rows_one_per_point|]. split.
  - intros x Hx. split; [by eapply dataSql_rows_in_window|].
    intros r Hr E. by eapply dataSql_rows_latest.
  - apply dataSql_rows_complete.
Qed.

Lemma length_omap_None {A B} (g : A → option B) (l : list A) :
  length l = (length (omap g l) + length (filter (λ x, g x = None) l))%nat.
Proof.
  induction l as [|a l IH]; [done|].
  rewrite filter_cons. cbn [omap list_omap].
  destruct (g a) as [b|] eqn:E; simpl; lia.
Qed.

Lemma NoDup_fmap_filter_le_1 {A B} (g : A → B) (P : A → Prop)
    `{!∀ x, Decision (P x)} (l : list A) :
  (∀ x y, P x → P y → g x = g y) →
  NoDup (g <$> l) → (length (filter P l) ≤ 1)%nat.
Proof.
  intros Hsame. induction l as [|a l IH]; [simpl; lia|].
  rewrite fmap_cons. intros [Ha Hnd]%NoDup_cons. rewrite filter_cons.
  case_decide as E; [|by apply IH]. simpl.
  assert (filter P l = []) as ->; [|simpl; lia].
  destruct (filter P l) as [|y ys] eqn:Ef; [done|].
  assert (y ∈ filter P l) as [Ey Hy]%list_elem_of_filter
    by (rewrite Ef; by left).
  exfalso. apply Ha. rewrite (Hsame a y E Ey).
  apply list_elem_of_fmap. by exists y.
Qed.

Lemma length_dataSql_rows now f name (table : Table) :
  Z.of_nat (length (dataSql_rows now f name table))
  = countSql now f name table
    + (if decide (Exists (λ r, haystack_name r = None) (where_ now f name table))
       then 1 else 0).
Proof.
  rewrite countSql_counts_selection.
  rewrite (length_omap_None haystack_name (dataSql_rows now f name table)).
  match goal with
  | |- context [length (filter ?P ?l)] => set (unnamed := filter P l)
  end.
  assert (length unnamed ≤ 1)%nat as Hle.
  { apply (NoDup_fmap_filter_le_1 haystack_name);
      [congruence | apply dataSql_rows_one_per_point]. }
  assert (∀ y, y ∈ unnamed ↔
               haystack_name y = None ∧ y ∈ dataSql_rows now f name table) as Hin
    by (intros y; unfold unnamed; by rewrite list_elem_of_filter).
  clearbody unnamed.
  case_decide as Hex.
  - apply Exists_exists in Hex as (r & Hr & En).
    destruct (dataSql_rows_complete now f name table r Hr) as (x & Hx & Ex).
    assert (x ∈ unnamed) as Hx' by (apply Hin; split; [congruence | done]).
    destruct unnamed as [|y [|z l]];
      [by apply elem_of_nil in Hx' | simpl; lia | simpl in Hle; lia].
  - destruct unnamed as [|y l]; [simpl; lia|].
    exfalso. apply Hex, Exists_exists.
    destruct (proj1 (Hin y) ltac:(by left)) as [Ey Hy].
    exists y. split; [by eapply dataSql_rows_in_window | done].
Qed.

(** X16. The total the listing reports counts the points that have a
    name.  The selection has one row more than that total exactly when
    the window holds a row without a name: such rows form a group of
    their own in the selection and are left out of the count. *)
Theorem selection_and_total now f name (table : Table) :
  Z.of_nat (length (dataSql_rows now f name table))
  = countSql now f name table
    + (if decide (Exists (λ r, haystack_name r = None) (where_ now f name table))
       then 1 else 0).
Proof. apply length_dataSql_rows. Qed.

Lemma on_page_lookup {A} (limit page : Z) (rows p : list A) (x : A) :
  0 < limit → 1 ≤ page →
  limit_offset (Some limit) (Some ((page - 1) * limit)) rows = Some p →
  x ∈ p →
  ∃ i : nat, rows !! i = Some x ∧
             (page - 1) * limit ≤ Z.of_nat i < page * limit.
Proof.
  intros Hl Hp. unfold limit_offset. rewrite decide_True by nia.
  intros [= <-] [j Hj]%list_elem_of_lookup.
  apply lookup_take_Some in Hj as [Hj Hlt]. rewrite lookup_drop in Hj.
  eexists. split; [exact Hj|]. nia.
Qed.

(** X17. With a positive page size, every row of the selection is on
    exactly one page, and a page never holds more rows than the page
    size. *)
Theorem every_point_on_one_page now f name (table : Table) (limit : Z) (x : Row) :
  0 < limit →
  x ∈ dataSql_rows now f name table →
  ∃ page p,
    1 ≤ page ∧
    limit_offset (Some limit) (Some ((page - 1) * limit))
      (dataSql_rows now f name table) = Some p ∧
    x ∈ p ∧ Z.of_nat (length p) ≤ limit ∧
    ∀ page' p', 1 ≤ page' →
      limit_offset (Some limit) (Some ((page' - 1) * limit))
        (dataSql_rows now f name table) = Some p' →
      x ∈ p' → page' = page.
Proof.
  intros Hl Hx. pose proof Hx as [i Hi]%list_elem_of_lookup.
  destruct (limit_offset_covers limit _ i x Hl Hi) as (page & p & Hp & Hpage & Hin).
  exists page, p. split; [done|]. split; [done|]. split; [done|]. split.
  { unfold limit_offset in Hpage. rewrite decide_True in Hpage by nia.
    injection Hpage as <-. rewrite length_take. lia. }
  intros page' p' Hp' Hpage' Hin'.
  destruct (on_page_lookup limit page _ p x Hl Hp Hpage Hin) as (j & Hj & Hjb).
  destruct (on_page_lookup limit page' _ p' x Hl Hp' Hpage' Hin') as (j' & Hj' & Hjb').
  assert (NoDup (dataSql_rows now f name table)) as Hnd.
  { eapply NoDup_fmap_1, dataSql_rows_one_per_point. }
  pose proof (NoDup_lookup _ _ _ _ Hnd Hj Hj') as ->. nia.
Qed.

(** X18. For a positive page size the number of pages reported is the
    least number of pages that hold the total.  When no row of the window
    lacks a name, every page after the last reported one is empty. *)
Theorem pages_hold_the_total now f name (table : Table) (limit : Z) :
  0 < limit →
  ∃ n, Math_ceil_div (countSql now f name table) (Some limit) = Int n ∧
       (n - 1) * limit < countSql now f name table ≤ n * limit ∧
       (¬ Exists (λ r, haystack_name r = None) (where_ now f name table) →
        ∀ page, n < page →
          limit_offset (Some limit) (Some ((page - 1) * limit))
            (dataSql_rows now f name table) = Some []).
Proof.
  intros Hl.
  destruct (Math_ceil_div_ceiling (countSql now f name table) limit Hl)
    as (n & Hn & Hb).
  exists n. split; [done|]. split; [done|].
  intros Hnone page Hpage.
  pose proof (length_dataSql_rows now f name table) as Hlen.
  rewrite decide_False in Hlen by done.
  assert (0 ≤ countSql now f name table) as H0 by (rewrite <- Z.add_0_r, <- Hlen; lia).
  unfold limit_offset. rewrite decide_True by nia.
  rewrite drop_ge by nia. by rewrite take_nil.
Qed.

(** X19. The pager of the monitoring page stays within the pages: with
    the number of pages the route reports for pages of 50 and a current
    page among them, both buttons lead to a page among them, and the
    entries the page says it shows are a run of at least one and at most
    50 entries within the total. *)
Theorem pager_stays_within_pages (totalCount totalPages page : Z) :
  Math_ceil_div totalCount (Some MonitoringPage.page_size) = Int totalPages →
  1 ≤ page ≤ totalPages →
  1 ≤ MonitoringPage.previous page ≤ totalPages ∧
  1 ≤ MonitoringPage.next totalPages page ≤ totalPages ∧
  1 ≤ MonitoringPage.showing_from page
    ≤ MonitoringPage.showing_to page totalCount ≤ totalCount ∧
  MonitoringPage.showing_to page totalCount - MonitoringPage.showing_from page < 50.
Proof.
  intros Hceil Hpage.
  destruct (Math_ceil_div_ceiling totalCount 50 ltac:(lia)) as (n & Hn & Hb).
  unfold MonitoringPage.page_size in Hceil. rewrite Hn in Hceil.
  injection Hceil as ->.
  unfold MonitoringPage.previous, MonitoringPage.next,
    MonitoringPage.showing_from, MonitoringPage.showing_to. lia.
Qed.

End MonitoringMore.

(** ** The settings page *)

Section SettingsPageFacts.
Context {Others : Type}.
Import SettingsPage.

Lemma trimStart_spec (s : string) :
  trimStart s = "" ∨ ∃ a r, trimStart s = String a r ∧ is_space a = false.
Proof.
  induction s as [|b s IH]; [by left|]. simpl.
  destruct (is_space b) eqn:E; [done|]. right. by exists b, s.
Qed.

Lemma trimEnd_first (a : ascii) (s : string) :
  is_space a = false → ∃ r, trimEnd (String a s) = String a r.
Proof.
  intros Ha. simpl. destruct (trimEnd s); rewrite ?Ha; by eexists.
Qed.

Lemma trimEnd_last (s r : string) (a : ascii) :
  trimEnd s = r ++ String a "" → is_space a = false.
Proof.
  revert r. induction s as [|b s IH]; intros r; simpl.
  - by destruct r.
  - destruct (trimEnd s) as [|c q] eqn:E.
    + destruct (is_space b) eqn:Eb; [by destruct r|].
      destruct r as [|c [|d r]]; [by intros [= <-] | done | done].
    + destruct r as [|d r]; [done|].
      intros [= _ Hq]. by apply (IH r).
Qed.

Lemma trim_ends (s : string) :
  (∀ a r, trim s = String a r → is_space a = false) ∧
  (∀ r a, trim s = r ++ String a "" → is_space a = false).
Proof.
  unfold trim. split.
  - intros a r. destruct (trimStart_spec s) as [-> | (b & q & -> & Hb)]; [done|].
    destruct (trimEnd_first b q Hb) as [q' ->]. by intros [= <- _].
  - intros r a. apply trimEnd_last.
Qed.

Lemma trimEnd_blank (s : string) :
  trimEnd s = "" ↔ ∀ a, a ∈ list_ascii_of_string s → is_space a = true.
Proof.
  induction s as [|b s IH]; simpl.
  - split; [|done]. by intros _ a ?%elem_of_nil.
  - destruct (trimEnd s) as [|c q] eqn:E.
    + destruct (is_space b) eqn:Eb.
      * split; [|done]. intros _ a [->|Ha]%elem_of_cons; [done|].
        by apply IH.
      * split; [done|]. intros Hall. specialize (Hall b ltac:(by left)). congruence.
    + split; [done|]. intros Hall.
      assert (String c q = "") as Habs; [|done].
      apply IH. intros a Ha. apply Hall. by right.
Qed.

Lemma trim_blank (s : string) :
  trim s = "" ↔ ∀ a, a ∈ list_ascii_of_string s → is_space a = true.
Proof.
  unfold trim. rewrite trimEnd_blank.
  induction s as [|b s IH]; [done|]. simpl.
  destruct (is_space b) eqn:Eb.
  - rewrite IH. split.
    + intros Hall a [->|Ha]%elem_of_cons; [done | by apply Hall].
    + intros Hall a Ha. apply Hall. by right.
  - simpl. split; intros Hall; specialize (Hall b ltac:(by left)); congruence.
Qed.

Lemma omap_id_imap_Some (g : nat → string → option string) (l : list string) :
  (∀ i p, g i p = Some p) → omap id (imap g l) = l.
Proof.
  revert g. induction l as [|p l IH]; intros g Hg; [done|].
  rewrite imap_cons. cbn [omap list_omap]. rewrite Hg. simpl.
  rewrite IH; [done|]. intros i q. apply Hg.
Qed.

Lemma filter_index_delete (index : nat) (patterns : list string) :
  filter_index index patterns = delete index patterns.
Proof.
  unfold filter_index. revert index.
  induction patterns as [|p l IH]; intros index; [done|].
  rewrite imap_cons. cbn [omap list_omap]. destruct index as [|n].
  - destruct (decide (0%nat ≠ 0%nat)) as [?|_]; [done|]. simpl.
    apply omap_id_imap_Some. intros i q. simpl.
    first [done | by rewrite decide_True by lia].
  - destruct (decide (0%nat ≠ S n)) as [_|?]; [|lia]. simpl. f_equal.
    rewrite <- IH. f_equal.
    apply imap_ext. intros i q _. simpl.
    repeat case_decide; first [done | lia].
Qed.

(** X20. Adding a topic whose text is blank (empty or white space only)
    changes nothing.  Any other text is added once, trimmed, at the end
    of the list, after which the input field is empty: the pattern added
    is not empty and neither starts nor ends with white space, the
    patterns before it and the other settings stay as they were, and
    removing the last pattern gives the former settings back. *)
Theorem add_topic_pattern (newTopic : string) (prev : Settings Others) :
  (trim newTopic = "" ↔
     ∀ a, a ∈ list_ascii_of_string newTopic → is_space a = true) ∧
  (trim newTopic = "" →
     addTopicPattern newTopic (Some prev) = (Some prev, newTopic)) ∧
  (trim newTopic ≠ "" →
     addTopicPattern newTopic (Some prev)
     = (Some {| topicPatterns := (topicPatterns prev ++ [trim newTopic])%list;
                others := others prev |}, "") ∧
     (∀ a r, trim newTopic = String a r → is_space a = false) ∧
     (∀ r a, trim newTopic = r ++ String a "" → is_space a = false) ∧
     removeTopicPattern (length (topicPatterns prev))
       (addTopicPattern newTopic (Some prev)).1 = Some prev).
Proof.
  split; [apply trim_blank|]. split.
  - intros Hb. unfold addTopicPattern. by rewrite decide_True.
  - intros Hn. unfold addTopicPattern. rewrite decide_False by done.
    split; [done|]. destruct (trim_ends newTopic) as [Hf Hl].
    split; [done|]. split; [done|]. simpl.
    rewrite filter_index_delete, delete_middle, app_nil_r. by destruct prev.
Qed.

(** X21. Removing a topic takes out the pattern at the given index and
    nothing else: the patterns before it keep their places, the ones
    after it move up by one, and an index beyond the list changes
    nothing. *)
Theorem remove_topic_pattern (index : nat) (prev : Settings Others) :
  ∃ next,
    removeTopicPattern index (Some prev) = Some next ∧
    others next = others prev ∧
    (∀ i, topicPatterns next !! i
          = topicPatterns prev !! (if decide (i < index)%nat then i else S i)) ∧
    ((index < length (topicPatterns prev))%nat →
       length (topicPatterns next) = (length (topicPatterns prev) - 1)%nat) ∧
    ((length (topicPatterns prev) ≤ index)%nat → next = prev).
Proof.
  eexists. split; [reflexivity|]. simpl. rewrite filter_index_delete.
  split; [done|]. split; [apply list_lookup_delete|]. split.
  - intros Hlt. apply length_delete. by apply lookup_lt_is_Some.
  - intros Hge. destruct prev as [l o]. simpl in *. f_equal.
    apply list_eq. intros i. rewrite list_lookup_delete.
    case_decide; [done|].
    rewrite !lookup_ge_None_2; [done | lia | lia].
Qed.

(** X22. Toggling a point puts it into the selection when it is not
    there and takes it out when it is; the other points stay, a selection
    without duplicates stays without duplicates, and toggling the same
    point twice leaves the same points selected. *)
Theorem toggle_point_selection (pointName : string) (prev : list string) :
  (pointName ∈ togglePointSelection pointName prev ↔ pointName ∉ prev) ∧
  (∀ p, p ≠ pointName → p ∈ togglePointSelection pointName prev ↔ p ∈ prev) ∧
  (NoDup prev → NoDup (togglePointSelection pointName prev)) ∧
  (∀ p, p ∈ togglePointSelection pointName (togglePointSelection pointName prev)
        ↔ p ∈ prev).
Proof.
  assert (∀ l, (pointName ∈ togglePointSelection pointName l ↔ pointName ∉ l) ∧
               (∀ p, p ≠ pointName →
                     p ∈ togglePointSelection pointName l ↔ p ∈ l)) as Hstep.
  { intros l. unfold togglePointSelection. case_decide as Hin.
    - split.
      + rewrite list_elem_of_filter. tauto.
      + intros p Hp. rewrite list_elem_of_filter. tauto.
    - split.
      + rewrite elem_of_app, list_elem_of_singleton. tauto.
      + intros p Hp. rewrite elem_of_app, list_elem_of_singleton. tauto. }
  destruct (Hstep prev) as [Hself Hother].
  split; [done|]. split; [done|]. split.
  - intros Hnd. unfold togglePointSelection. case_decide as Hin.
    + by apply NoDup_filter.
    + apply NoDup_app. split; [done|]. split; [|apply NoDup_singleton].
      intros x Hx ->%list_elem_of_singleton. done.
  - intros p. destruct (Hstep (togglePointSelection pointName prev)) as [Hself' Hother'].
    destruct (decide (p = pointName)) as [->|Hne].
    + rewrite Hself', Hself. split; [|tauto].
      intros Hnn. by destruct (decide (pointName ∈ prev)).
    + by rewrite Hother', Hother.
Qed.

End SettingsPageFacts.

(** ** The selection, from the settings page to the preview handler *)

Section SelectionFacts.
Context `{Host}.
Import SettingsPage.

Lemma rev_app_spec (s1 s2 : string) : String.rev_app s1 s2 = String.rev s1 ++ s2.
Proof.
  unfold String.rev. revert s2. induction s1 as [|a s1 IH]; intros s2; [done|].
  simpl. rewrite IH, (IH (String a "")), string_app_assoc. done.
Qed.

Lemma split_go_spec (c : ascii) (acc s : string) :
  Js.split_go c acc s
  = match Js.split_go c "" s with
    | h :: t => (String.rev acc ++ h) :: t
    | [] => []
    end.
Proof.
  change (String.rev "") with "".
  revert acc. induction s as [|a s IH]; intros acc; simpl.
  - change (String.rev "") with "". by rewrite string_app_empty_r.
  - case_decide.
    + change (String.rev "") with "". by rewrite string_app_empty_r.
    + rewrite (IH (String a acc)), (IH (String a "")).
      destruct (Js.split_go c "" s) as [|h t]; [done|].
      f_equal. unfold String.rev. simpl.
      rewrite !rev_app_spec, !string_app_assoc. reflexivity.
Qed.

Lemma split_cons (c a : ascii) (s : string) :
  Js.split c (String a s)
  = if decide (a = c) then "" :: Js.split c s
    else match Js.split c s with
         | h :: t => String a h :: t
         | [] => []
         end.
Proof.
  unfold Js.split. simpl. case_decide; [done|].
  rewrite split_go_spec. by destruct (Js.split_go c "" s).
Qed.

Lemma split_clean (c : ascii) (x : string) :
  Js.includes c x = false → Js.split c x = [x].
Proof.
  induction x as [|a x IH]; [done|].
  intros [Ha Hx]%includes_cons_false.
  rewrite split_cons, decide_False, IH by done. done.
Qed.

Lemma split_app (c : ascii) (x r : string) :
  Js.includes c x = false → Js.split c (x ++ String c r) = x :: Js.split c r.
Proof.
  induction x as [|a x IH]; intros Hx.
  - by rewrite string_app_empty_l, split_cons, decide_True.
  - apply includes_cons_false in Hx as [Ha Hx].
    rewrite string_app_cons, split_cons, decide_False, IH by done. done.
Qed.

Lemma split_elements_clean (c : ascii) (s x : string) :
  x ∈ Js.split c s → Js.includes c x = false.
Proof.
  revert x. induction s as [|a s IH]; intros x.
  - intros ->%list_elem_of_singleton. done.
  - rewrite split_cons. case_decide as E.
    + intros [->|Hx]%elem_of_cons; [done | by apply IH].
    + destruct (Js.split c s) as [|h t]; [by intros ?%elem_of_nil|].
      intros [->|Hx]%elem_of_cons.
      * simpl. rewrite decide_False by done. apply IH. by left.
      * apply IH. by right.
Qed.

Lemma split_join (names : list string) :
  names ≠ [] → Forall (λ n, Js.includes "," n = false) names →
  Js.split "," (Js.join "," names) = names.
Proof.
  induction names as [|x [|y names] IH]; intros Hne Hall; [done| |].
  - simpl. apply split_clean. by apply Forall_inv in Hall.
  - apply Forall_cons in Hall as [Hx Hall].
    change (Js.join "," (x :: y :: names))
      with (x ++ String "," (Js.join "," (y :: names))).
    rewrite split_app by done. f_equal. by apply IH.
Qed.

Lemma filter_Boolean_all (names : list string) :
  Forall (λ n, n ≠ "") names → Js.filter_Boolean names = names.
Proof.
  unfold Js.filter_Boolean. induction 1 as [|n names Hn _ IH]; [done|].
  by rewrite filter_cons, decide_True, IH.
Qed.

Lemma split_join_selection (selectedPoints : list string) :
  Forall (λ n, n ≠ "" ∧ Js.includes "," n = false) selectedPoints →
  Js.filter_Boolean (Js.split "," (haystack_names_parameter selectedPoints))
  = selectedPoints.
Proof.
  unfold haystack_names_parameter.
  intros Hall. destruct selectedPoints as [|x l]; [done|].
  rewrite split_join; [| done |].
  - apply filter_Boolean_all. eapply Forall_impl; [exact Hall|]. by intros n [? _].
  - eapply Forall_impl; [exact Hall|]. by intros n [_ ?].
Qed.

(** X23. The preview handler recovers the selection of the settings
    page from the comma-joined parameter exactly when no selected name
    is empty and none holds a comma. *)
Theorem preview_sees_the_selection (selectedPoints : list string) :
  Js.filter_Boolean (Js.split "," (haystack_names_parameter selectedPoints))
  = selectedPoints
  ↔ Forall (λ n, n ≠ "" ∧ Js.includes "," n = false) selectedPoints.
Proof.
  unfold haystack_names_parameter. split.
  - intros Heq. apply Forall_forall. intros n Hn. rewrite <- Heq in Hn.
    unfold Js.filter_Boolean in Hn. apply list_elem_of_filter in Hn as [Hne Hn].
    split; [done | by eapply split_elements_clean].
  - apply (split_join_selection selectedPoints).
Qed.

(** X24. For a selection in which no name is empty or holds a comma, the
    count the preview answers to the request of the settings page is the
    number of rows the delete, to which the page sends the selection as a
    list, removes from the same table. *)
Theorem preview_of_selection_matches_delete (table : Store.Table)
    (selectedPoints : list string) :
  selectedPoints ≠ [] →
  Forall (λ n, n ≠ "" ∧ Js.includes "," n = false) selectedPoints →
  ∃ count table',
    DeleteRoute.GET table
      (<["haystack_names" := haystack_names_parameter selectedPoints]>
         {["type" := "points"]}) = DeleteRoute.Count count ∧
    DeleteRoute.DELETE table
      (DeleteRoute.Build_DeleteRequest (Some "points") (Some selectedPoints) None None)
    = (table', DeleteRoute.Success) ∧
    count = Z.of_nat (length table) - Z.of_nat (length table').
Proof.
  intros Hne Hall. apply split_join_selection in Hall.
  unfold DeleteRoute.GET, DeleteRoute.DELETE.
  rewrite lookup_insert_eq, !lookup_insert_ne, lookup_singleton_eq by done.
  rewrite (lookup_singleton_ne "type" "from"), (lookup_singleton_ne "type" "to")
    by done.
  cbn [fmap option_fmap option_map]. rewrite Hall.
  unfold DeleteRoute.choose. cbn [DeleteRoute.type DeleteRoute.haystack_names].
  rewrite !decide_True by done.
  destruct selectedPoints as [|n ns]; [done|]. simpl.
  eexists _, _. split; [reflexivity|]. split; [reflexivity|].
  apply length_selected_spared.
Qed.

End SelectionFacts.

(** ** The certificates route *)

Section CertificatesFacts.
Context `{CertificatesRoute.NodePath} {Others : Type} (default_others : Others).
Import CertificatesRoute.

Lemma filePath_cases (file_name : string) :
  filePath file_name = "/app/certs/ca_cert.pem" ∨
  filePath file_name = "/app/certs/ca_cert.crt" ∨
  filePath file_name = "/app/certs/ca_cert.cer".
Proof.
  unfold filePath, extension. case_decide as Hin; [|by left].
  unfold validExtensions in Hin.
  apply elem_of_cons in Hin as [->|Hin]; [by left|].
  apply elem_of_cons in Hin as [->|Hin]; [by right; left|].
  apply elem_of_cons in Hin as [->|Hin]; [by right; right|].
  by apply elem_of_nil in Hin.
Qed.

Lemma filePath_not_empty (file_name : string) : filePath file_name ≠ "".
Proof. by destruct (filePath_cases file_name) as [-> | [-> | ->]]. Qed.

Lemma or_null_Some (p : string) : p ≠ "" → Js.or_null (Some p) = Some p.
Proof. intros Hp. unfold Js.or_null. by rewrite decide_False. Qed.

(** X25. An upload of type ca is stored under one of three fixed paths
    of the certificate directory, whatever the name of the uploaded file
    is; no other file is written or removed, the row's other columns are
    kept, and the listing then reports the certificate as present under
    that path. *)
Theorem upload_is_stored_under_a_fixed_path (file : File) (w : World (Others:=Others)) :
  ∃ p w',
    POST default_others (Some file) (Some "ca") w = (w', Uploaded p) ∧
    p ∈ ["/app/certs/ca_cert.pem"; "/app/certs/ca_cert.crt"; "/app/certs/ca_cert.cer"] ∧
    files w' !! p = Some (content file) ∧
    (∀ q, q ≠ p → files w' !! q = files w !! q) ∧
    (∀ c, config w = Some c → (others <$> config w') = Some (others c)) ∧
    GET w' = {| exists_ := true; path := Some p; filename := Some (basename p) |}.
Proof.
  eexists _, _. split; [unfold POST; by rewrite decide_True|]. simpl.
  split.
  { destruct (filePath_cases (name file)) as [-> | [-> | ->]];
      rewrite !elem_of_cons; auto. }
  split; [apply lookup_insert_eq|]. split.
  { intros q Hq. by apply lookup_insert_ne. }
  split; [by intros c ->|].
  unfold GET. cbn [config caCertPath files mbind option_bind].
  rewrite or_null_Some by apply filePath_not_empty.
  rewrite decide_True; [done|]. rewrite lookup_insert_eq. by eexists.
Qed.

(** X26. Deleting the certificate, when the configuration row exists,
    removes the file the row names and no other file, clears the path in
    the row and keeps the row's other columns; the listing then reports
    no certificate.  When there is no configuration row the request ends
    in the error response and nothing is changed. *)
Theorem delete_certificate (w : World (Others:=Others)) :
  (∀ c, config w = Some c →
     ∃ w', DELETE (Some "ca") w = (w', Deleted) ∧
       config w' = Some {| caCertPath := None; others := others c |} ∧
       (∀ p, Js.or_null (caCertPath c) = Some p → files w' !! p = None) ∧
       (∀ q, Js.or_null (caCertPath c) ≠ Some q → files w' !! q = files w !! q) ∧
       GET w' = {| exists_ := false; path := None; filename := None |}) ∧
  (config w = None → DELETE (Some "ca") w = (w, DeleteError500)).
Proof.
  split.
  - intros c Hc. eexists. unfold DELETE. rewrite decide_True by done.
    rewrite Hc. split; [reflexivity|]. simpl. split; [done|].
    destruct (Js.or_null (caCertPath c)) as [p|] eqn:Ep.
    + split.
      * intros ? [= <-]. case_decide as Hex; [apply lookup_delete_eq|].
        destruct (files w !! p) eqn:E; [|done]. exfalso. apply Hex. by eexists.
      * split; [|done]. intros q Hq. case_decide; [|done].
        apply lookup_delete_ne. congruence.
    + split; [done|]. split; done.
  - intros Hc. unfold DELETE. rewrite decide_True by done. rewrite Hc. simpl.
    destruct w as [cfg fs]. simpl in *. by subst.
Qed.

(** X27. The route keeps one certificate in the row but can leave two on
    the disk: after an upload, a second upload whose extension differs
    and a deletion, the row names no certificate and the listing reports
    none, yet the file of the first upload is still there. *)
Theorem first_upload_outlives_delete (file1 file2 : File) (w : World (Others:=Others)) :
  extension (name file1) ≠ extension (name file2) →
  let w1 := (POST default_others (Some file1) (Some "ca") w).1 in
  let w2 := (POST default_others (Some file2) (Some "ca") w1).1 in
  let w3 := (DELETE (Some "ca") w2).1 in
  (DELETE (Some "ca") w2).2 = Deleted ∧
  GET w3 = {| exists_ := false; path := None; filename := None |} ∧
  files w3 !! filePath (name file2) = None ∧
  files w3 !! filePath (name file1) = Some (content file1).
Proof.
  intros Hext.
  assert (filePath (name file1) ≠ filePath (name file2)) as Hne.
  { unfold filePath. intros Heq.
    apply (inj (String.app CERTS_DIR)) in Heq.
    apply (inj (String.app "/")) in Heq.
    apply (inj (String.app "ca")) in Heq.
    by apply (inj (String.app "_cert")) in Heq. }
  unfold POST, DELETE. rewrite !decide_True by done.
  cbn [fst snd config caCertPath files mbind option_bind].
  rewrite or_null_Some by apply filePath_not_empty.
  rewrite decide_True by (rewrite lookup_insert_eq; by eexists).
  cbn [fst snd config caCertPath files mbind option_bind].
  split; [done|]. split; [done|]. split; [apply lookup_delete_eq|].
  rewrite lookup_delete_ne, lookup_insert_ne by done. apply lookup_insert_eq.
Qed.

End CertificatesFacts.

(** ** The 5-minute averages *)

Section FiveMinutesFacts.
Context `{FiveMinutes.DoubleAggregates}.
Import FiveMinutes.

Lemma time_bucket_bounds (t : Z) :
  time_bucket five_minutes t ≤ t < time_bucket five_minutes t + five_minutes ∧
  (five_minutes | time_bucket five_minutes t).
Proof.
  unfold time_bucket, five_minutes.
  pose proof (Z.div_mod t 300000000 ltac:(lia)).
  pose proof (Z.mod_pos_bound t 300000000 ltac:(lia)).
  split; [lia|]. exists (t `div` 300000000). lia.
Qed.

(** Counting the elements of a list by their key, over a duplicate-free
    list of keys. *)
Lemma count_by_key {A K} `{EqDecision K} (g : A → K) (ks : list K) (l : list A) :
  NoDup ks →
  foldr Z.add 0 ((λ k, Z.of_nat (length (filter (λ x, g x = k) l))) <$> ks)
  = Z.of_nat (length (filter (λ x, g x ∈ ks) l)).
Proof.
  induction 1 as [|k ks Hk Hnd IH]; [rewrite fmap_nil|rewrite fmap_cons]; cbn [foldr].
  - induction l as [|x l IHl]; [done|].
    rewrite filter_cons, decide_False; [done | apply not_elem_of_nil].
  - rewrite IH. clear IH.
    induction l as [|x l IHl]; [done|].
    rewrite !filter_cons.
    destruct (decide (g x = k)) as [E|N].
    + rewrite (decide_True (P:=g x ∈ k :: ks)) by (rewrite E; by left).
      rewrite (decide_False (P:=g x ∈ ks)) by (by rewrite E).
      simpl. lia.
    + destruct (decide (g x ∈ ks)) as [I|I].
      * rewrite decide_True by (by right). simpl. lia.
      * rewrite decide_False; [lia|]. by intros [?|?]%elem_of_cons.
Qed.

Lemma filter_all {A} (P : A → Prop) `{∀ x, Decision (P x)} (l : list A) :
  (∀ x, x ∈ l → P x) → filter P l = l.
Proof.
  induction l as [|x l IH]; intros Hall; [done|].
  rewrite filter_cons, decide_True by (apply Hall; by left).
  rewrite IH; [done|]. intros y Hy. apply Hall. by right.
Qed.

Lemma elem_of_view (table : Store.Table) (a : Average) :
  a ∈ view table ↔ ∃ r, r ∈ good table ∧ a = average (key r) table.
Proof.
  unfold view. rewrite list_elem_of_fmap. split.
  - intros (k & -> & Hk). rewrite elem_of_remove_dups, list_elem_of_fmap in Hk.
    destruct Hk as (r & -> & Hr). by exists r.
  - intros (r & Hr & ->). exists (key r). split; [done|].
    rewrite elem_of_remove_dups, list_elem_of_fmap. by exists r.
Qed.

(** X28. Every row of the 5-minute view stands for at least one reading
    of quality good: its bucket starts on a multiple of five minutes, and
    the readings it counts are the good readings of its point and display
    name whose time lies in the five minutes from the bucket's start. *)
Theorem five_minute_buckets (table : Store.Table) (a : Average) :
  a ∈ view table →
  (five_minutes | bucket a) ∧
  1 ≤ sample_count a ∧
  sample_count a
  = Z.of_nat (length (filter
      (λ r, Store.quality r = Some "good" ∧
            Store.haystack_name r = haystack_name a ∧ Store.dis r = dis a ∧
            bucket a ≤ Store.time r < bucket a + five_minutes) table)).
Proof.
  intros (r0 & Hr0 & ->)%elem_of_view. simpl.
  destruct (time_bucket_bounds (Store.time r0)) as [Hb Hdiv].
  split; [done|].
  assert (∀ r, key r = key r0 ↔
               Store.haystack_name r = Store.haystack_name r0 ∧
               Store.dis r = Store.dis r0 ∧
               time_bucket five_minutes (Store.time r0) ≤ Store.time r
               < time_bucket five_minutes (Store.time r0) + five_minutes) as Hkey.
  { intros r. unfold key. split.
    - intros [= Eb -> ->]. split; [done|]. split; [done|].
      rewrite <- Eb. apply time_bucket_bounds.
    - intros (-> & -> & Hr). f_equal. f_equal.
      unfold time_bucket, five_minutes in *. f_equal.
      pose proof (Z.div_mod (Store.time r0) 300000000 ltac:(lia)).
      pose proof (Z.mod_pos_bound (Store.time r0) 300000000 ltac:(lia)).
      symmetry. apply (Z.div_unique _ _ _ (Store.time r - 300000000 * (Store.time r0 `div` 300000000))); lia. }
  split.
  - assert (r0 ∈ members (key r0) table) as Hin
      by (unfold members; by apply list_elem_of_filter).
    destruct (members (key r0) table); [by apply elem_of_nil in Hin | simpl; lia].
  - f_equal. f_equal. unfold members, good, Store.Table in *.
    rewrite list_filter_filter. apply list_filter_iff. intros r.
    rewrite Hkey. tauto.
Qed.

(** X29. The view has one row for each group, and its sample counts add
    up to the number of readings of quality good: every good reading is
    counted once, and a reading of any other quality, or of none, is
    counted nowhere. *)
Theorem five_minute_counts (table : Store.Table) :
  NoDup ((λ a, (bucket a, haystack_name a, dis a)) <$> view table) ∧
  foldr Z.add 0 (sample_count <$> view table)
  = Z.of_nat (length (filter (λ r, Store.quality r = Some "good") table)).
Proof.
  unfold view. rewrite <- !list_fmap_compose. split.
  - rewrite (list_fmap_ext _ id (remove_dups (key <$> good table))).
    + rewrite list_fmap_id. apply NoDup_remove_dups.
    + by intros ? [[b n] d] _.
  - change (sample_count ∘ (λ k, average k table))
      with (λ k, Z.of_nat (length (filter (λ r, key r = k) (good table)))).
    rewrite count_by_key by apply NoDup_remove_dups.
    f_equal. f_equal. fold (good table).
    apply filter_all. intros r Hr.
    rewrite elem_of_remove_dups, list_elem_of_fmap. by exists r.
Qed.

End FiveMinutesFacts.


(** ** The further properties on the sample data *)

Section MoreWitnesses.
Import Samples.

Lemma points_listing_stats_witness :
  ahu_temp ∈ PointsRoute.GET table ∧
  PointsRoute.count ahu_temp
  = Z.of_nat (length (filter
      (λ r, Store.haystack_name r = Some (PointsRoute.name ahu_temp)) table)) ∧
  1 ≤ PointsRoute.count ahu_temp ∧
  (∃ r, r ∈ table ∧ Store.haystack_name r = Some (PointsRoute.name ahu_temp) ∧
        Store.time r = PointsRoute.firstTime ahu_temp) ∧
  (∃ r, r ∈ table ∧ Store.haystack_name r = Some (PointsRoute.name ahu_temp) ∧
        Store.time r = PointsRoute.lastTime ahu_temp) ∧
  (∀ r, r ∈ table → Store.haystack_name r = Some (PointsRoute.name ahu_temp) →
        PointsRoute.firstTime ahu_temp ≤ Store.time r ≤ PointsRoute.lastTime ahu_temp) ∧
  PointsRoute.firstTime ahu_temp ≤ PointsRoute.lastTime ahu_temp.
Proof.
  assert (ahu_temp ∈ PointsRoute.GET table) as Hin.
  { change (ahu_temp ∈ [ahu_temp; vav_flow]). apply list_elem_of_here. }
  split; [exact Hin|].
  apply (points_listing_stats (H:=host) table ahu_temp Hin).
Defined.

Lemma preview_count_is_sum_of_listed_counts_witness :
  (preview_points !! "type" = Some "points" ∧
   (λ s, Js.filter_Boolean (Js.split "," s)) <$> preview_points !! "haystack_names"
   = Some ["ahu.temp"; "vav.flow"] ∧
   ["ahu.temp"; "vav.flow"] ≠ []) ∧
  DeleteRoute.GET table preview_points
  = DeleteRoute.Count
      (foldr Z.add 0
         (PointsRoute.count <$>
            filter (λ p, PointsRoute.name p ∈ ["ahu.temp"; "vav.flow"])
              (PointsRoute.GET table))).
Proof.
  split.
  - split; [reflexivity | split; [reflexivity | discriminate]].
  - apply (preview_count_is_sum_of_listed_counts (H:=host) table preview_points
             ["ahu.temp"; "vav.flow"]).
    + reflexivity.
    + reflexivity.
    + discriminate.
Defined.

Lemma delete_points_then_listing_witness :
  (DeleteRoute.type delete_points = Some "points" ∧
   DeleteRoute.haystack_names delete_points = Some ["ahu.temp"; "vav.flow"] ∧
   ["ahu.temp"; "vav.flow"] ≠ []) ∧
  (DeleteRoute.DELETE (table ++ [r4])%list delete_points).2 = DeleteRoute.Success ∧
  PointsRoute.GET (DeleteRoute.DELETE (table ++ [r4])%list delete_points).1
  = filter (λ p, PointsRoute.name p ∉ ["ahu.temp"; "vav.flow"])
      (PointsRoute.GET (table ++ [r4])%list).
Proof.
  split.
  - split; [reflexivity | split; [reflexivity | discriminate]].
  - apply (delete_points_then_listing (H:=host) (table ++ [r4])%list delete_points
             ["ahu.temp"; "vav.flow"]).
    + reflexivity.
    + reflexivity.
    + discriminate.
Defined.

Lemma delete_leaves_nothing_to_delete_witness :
  (DeleteRoute.type delete_points = preview_points !! "type" ∧
   DeleteRoute.haystack_names delete_points
   = (λ s, Js.filter_Boolean (Js.split "," s)) <$> preview_points !! "haystack_names" ∧
   DeleteRoute.from delete_points = preview_points !! "from" ∧
   DeleteRoute.to delete_points = preview_points !! "to" ∧
   (DeleteRoute.DELETE (table ++ [r4])%list delete_points).2 = DeleteRoute.Success) ∧
  DeleteRoute.GET (DeleteRoute.DELETE (table ++ [r4])%list delete_points).1
    preview_points = DeleteRoute.Count 0 ∧
  DeleteRoute.DELETE (DeleteRoute.DELETE (table ++ [r4])%list delete_points).1
    delete_points
  = ((DeleteRoute.DELETE (table ++ [r4])%list delete_points).1, DeleteRoute.Success).
Proof.
  split.
  - repeat split; reflexivity.
  - apply (delete_leaves_nothing_to_delete (H:=host) (table ++ [r4])%list
             preview_points delete_points); reflexivity.
Defined.

Lemma quality_of_every_row_witness :
  (History.reachable [r1] ∧ r1 ∈ [r1]) ∧
  (Store.quality r1 = None ∨ Store.quality r1 = Some "good" ∨
   Store.quality r1 = Some "uncertain" ∨ Store.quality r1 = Some "bad").
Proof.
  assert (History.reachable [r1]) as Hreach.
  { apply (History.reach_insert (Store.values_of r1) [] [r1]);
      [apply History.reach_empty | reflexivity]. }
  split.
  - split; [exact Hreach | apply list_elem_of_here].
  - apply (quality_of_every_row (H:=host) [r1] r1 Hreach), list_elem_of_here.
Defined.

Lemma export_only_matching_rows_witness :
  (ExportRoute.query_readings 0 table export_vav = Some [r3] ∧ r3 ∈ [r3]) ∧
  r3 ∈ table ∧
  (∃ f, Sql.timeFilter (H:=host) "24 hours"
          (Js.or_null (export_vav !! "start")) (Js.or_null (export_vav !! "end"))
          (Js.or_else (export_vav !! "range") "24h") = Some f ∧
        Store.in_window 0 f r3 = true) ∧
  (∀ n, Js.or_null (export_vav !! "haystack") = Some n →
        Store.haystack_name r3 = Some n).
Proof.
  split.
  - split; [reflexivity | apply list_elem_of_here].
  - apply (export_only_matching_rows (H:=host) 0 table export_vav [r3] r3).
    + reflexivity.
    + apply list_elem_of_here.
Defined.

Lemma export_of_nothing_witness :
  (Sql.timeFilter (H:=host) "24 hours"
     (Js.or_null (export_before_all !! "start"))
     (Js.or_null (export_before_all !! "end"))
     (Js.or_else (export_before_all !! "range") "24h") = Some (Store.Between 0 50) ∧
   Store.where_ 0 (Store.Between 0 50)
     (Js.or_null (export_before_all !! "haystack")) table = []) ∧
  ExportRoute.GET 0 table export_before_all
  = if decide (Js.or_else (export_before_all !! "format") "csv" = "json")
    then ExportRoute.Json_body []
    else ExportRoute.Csv_body "time,haystack_name,display_name,value,units,quality".
Proof.
  split.
  - split; reflexivity.
  - apply (export_of_nothing (H:=host) 0 table export_before_all (Store.Between 0 50));
      reflexivity.
Defined.

Lemma export_ignores_lone_bound_witness :
  (Js.or_null (export_lone_start !! "start") = None ∨
   Js.or_null (export_lone_start !! "end") = None) ∧
  ExportRoute.GET 1000 table export_lone_start
  = ExportRoute.GET 1000 table (delete "start" (delete "end" export_lone_start)).
Proof.
  split.
  - right. reflexivity.
  - apply (export_ignores_lone_bound (H:=host) 1000 table export_lone_start).
    right. reflexivity.
Defined.

Lemma export_unknown_range_witness :
  ((Js.or_null (export_one_year !! "start") = None ∨
    Js.or_null (export_one_year !! "end") = None) ∧
   export_one_year !! "range" = Some "1y" ∧
   "1y" ∉ ["1h"; "24h"; "7d"; "30d"]) ∧
  ("1y" ∈ Sql.Object_prototype_keys →
     ExportRoute.GET 1000 table export_one_year = ExportRoute.Error500) ∧
  ("1y" ∉ Sql.Object_prototype_keys →
     ExportRoute.GET 1000 table export_one_year
     = ExportRoute.GET 1000 table (<["range" := "24h"]> export_one_year)).
Proof.
  split.
  - split; [left; reflexivity | split; [reflexivity | by_computation]].
  - apply (export_unknown_range (H:=host) 1000 table export_one_year "1y").
    + left. reflexivity.
    + reflexivity.
    + by_computation.
Defined.


Lemma csv_header_line_reads_back_witness :
  Forall Csv.plain (ExportRoute.sortedMetadataKeys table) ∧
  CsvLine.read_line (Js.join "," (ExportRoute.headers table))
  = Some (ExportRoute.headers table).
Proof.
  assert (Forall Csv.plain (ExportRoute.sortedMetadataKeys table)) as Hkeys.
  { change (ExportRoute.sortedMetadataKeys table) with ["device_id"; "timezone"].
    repeat (apply Forall_cons; split; [split; reflexivity|]). apply Forall_nil_2. }
  split; [exact Hkeys|].
  apply (csv_header_line_reads_back (H:=host) table Hkeys).
Defined.

Lemma every_point_on_one_page_witness :
  (0 < 1 ∧ r2 ∈ MonitoringRoute.dataSql_rows 0 (Store.Between 0 1000) None table) ∧
  ∃ page p,
    1 ≤ page ∧
    Store.limit_offset (Some 1) (Some ((page - 1) * 1))
      (MonitoringRoute.dataSql_rows 0 (Store.Between 0 1000) None table) = Some p ∧
    r2 ∈ p ∧ Z.of_nat (length p) ≤ 1 ∧
    ∀ page' p', 1 ≤ page' →
      Store.limit_offset (Some 1) (Some ((page' - 1) * 1))
        (MonitoringRoute.dataSql_rows 0 (Store.Between 0 1000) None table) = Some p' →
      r2 ∈ p' → page' = page.
Proof.
  assert (r2 ∈ MonitoringRoute.dataSql_rows 0 (Store.Between 0 1000) None table)
    as Hin.
  { change (r2 ∈ [r2; r3]). apply list_elem_of_here. }
  split; [split; [lia | exact Hin]|].
  apply (every_point_on_one_page (H:=host) 0 (Store.Between 0 1000) None table 1 r2);
    [lia | exact Hin].
Defined.

Lemma pages_hold_the_total_witness :
  0 < 1 ∧
  ∃ n, MonitoringRoute.Math_ceil_div
         (MonitoringRoute.countSql 0 (Store.Between 0 1000) None table) (Some 1)
       = MonitoringRoute.Int n ∧
       (n - 1) * 1 < MonitoringRoute.countSql 0 (Store.Between 0 1000) None table
       ≤ n * 1 ∧
       (¬ Exists (λ r, Store.haystack_name r = None)
            (Store.where_ 0 (Store.Between 0 1000) None table) →
        ∀ page, n < page →
          Store.limit_offset (Some 1) (Some ((page - 1) * 1))
            (MonitoringRoute.dataSql_rows 0 (Store.Between 0 1000) None table)
          = Some []).
Proof.
  split; [lia|].
  apply (pages_hold_the_total (H:=host) 0 (Store.Between 0 1000) None table 1). lia.
Defined.

Lemma pager_stays_within_pages_witness :
  (MonitoringRoute.Math_ceil_div 120 (Some MonitoringPage.page_size)
   = MonitoringRoute.Int 3 ∧ 1 ≤ 3 ≤ 3) ∧
  1 ≤ MonitoringPage.previous 3 ≤ 3 ∧
  1 ≤ MonitoringPage.next 3 3 ≤ 3 ∧
  1 ≤ MonitoringPage.showing_from 3 ≤ MonitoringPage.showing_to 3 120 ≤ 120 ∧
  MonitoringPage.showing_to 3 120 - MonitoringPage.showing_from 3 < 50.
Proof.
  split.
  - split; [reflexivity | lia].
  - apply (pager_stays_within_pages 120 3 3); [reflexivity | lia].
Defined.

Lemma preview_of_selection_matches_delete_witness :
  (["ahu.temp"; "vav.flow"] ≠ [] ∧
   Forall (λ n, n ≠ "" ∧ Js.includes "," n = false) ["ahu.temp"; "vav.flow"]) ∧
  ∃ count table',
    DeleteRoute.GET (table ++ [r4])%list
      (<["haystack_names" :=
           SettingsPage.haystack_names_parameter ["ahu.temp"; "vav.flow"]]>
         {["type" := "points"]}) = DeleteRoute.Count count ∧
    DeleteRoute.DELETE (table ++ [r4])%list
      (DeleteRoute.Build_DeleteRequest (Some "points")
         (Some ["ahu.temp"; "vav.flow"]) None None)
    = (table', DeleteRoute.Success) ∧
    count = Z.of_nat (length (table ++ [r4])%list) - Z.of_nat (length table').
Proof.
  assert (Forall (λ n, n ≠ "" ∧ Js.includes "," n = false) ["ahu.temp"; "vav.flow"])
    as Hclean.
  { repeat constructor; discriminate. }
  split; [split; [discriminate | exact Hclean]|].
  apply (preview_of_selection_matches_delete (H:=host) (table ++ [r4])%list
           ["ahu.temp"; "vav.flow"]); [discriminate | exact Hclean].
Defined.

Lemma first_upload_outlives_delete_witness :
  CertificatesRoute.extension (H:=paths) (CertificatesRoute.name root_CRT)
  ≠ CertificatesRoute.extension (H:=paths) (CertificatesRoute.name ca_pem) ∧
  let w1 := (CertificatesRoute.POST (H:=paths) tt (Some root_CRT) (Some "ca")
               no_certificate).1 in
  let w2 := (CertificatesRoute.POST (H:=paths) tt (Some ca_pem) (Some "ca") w1).1 in
  let w3 := (CertificatesRoute.DELETE (Some "ca") w2).1 in
  (CertificatesRoute.DELETE (Some "ca") w2).2 = CertificatesRoute.Deleted ∧
  CertificatesRoute.GET (H:=paths) w3
  = CertificatesRoute.Build_CaStatus false None None ∧
  CertificatesRoute.files w3
    !! CertificatesRoute.filePath (H:=paths) (CertificatesRoute.name ca_pem) = None ∧
  CertificatesRoute.files w3
    !! CertificatesRoute.filePath (H:=paths) (CertificatesRoute.name root_CRT)
  = Some (CertificatesRoute.content root_CRT).
Proof.
  split; [discriminate|].
  apply (first_upload_outlives_delete (H:=paths) tt root_CRT ca_pem no_certificate).
  discriminate.
Defined.

Lemma five_minute_buckets_witness :
  ahu_temp_average ∈ FiveMinutes.view (H0:=aggregates) table ∧
  (FiveMinutes.five_minutes | FiveMinutes.bucket ahu_temp_average) ∧
  1 ≤ FiveMinutes.sample_count ahu_temp_average ∧
  FiveMinutes.sample_count ahu_temp_average
  = Z.of_nat (length (filter
      (λ r, Store.quality r = Some "good" ∧
            Store.haystack_name r = FiveMinutes.haystack_name ahu_temp_average ∧
            Store.dis r = FiveMinutes.dis ahu_temp_average ∧
            FiveMinutes.bucket ahu_temp_average ≤ Store.time r
            < FiveMinutes.bucket ahu_temp_average + FiveMinutes.five_minutes) table)).
Proof.
  assert (ahu_temp_average ∈ FiveMinutes.view (H0:=aggregates) table) as Hin.
  { apply list_elem_of_further, list_elem_of_here. }
  split; [exact Hin|].
  apply (five_minute_buckets (H0:=aggregates) table ahu_temp_average Hin).
Defined.

End MoreWitnesses.
